(** * Avalon-ST bus-functional models of fpga_packet_mux (verif/tb)

    A cycle-level shallow embedding of the cocotb drivers and monitors.

    Time model (cocotb): every agent is a coroutine suspended on
    [RisingEdge(clk)].  At an edge every suspended agent resumes; reads of
    [sig.value] return the value the signal holds at that edge, and every
    [sig.value = x] written during the resumption is applied after all
    agents ran (writes are deferred), so it is first seen at the NEXT edge.
    An agent is therefore modelled by a resume function
    [state -> Port -> state * (Port -> Port)]: it reads the port as sampled
    at the edge and returns its new state together with the writes it
    scheduled. *)

From Stdlib Require Import String ZArith List Bool Lia.
Import ListNotations.

(** ** Signals of one port *)

(** The signals of one Avalon-ST port: [data], [valid], [sop], [eop],
    [empty], [error] (driven by the source) and [ready] (driven by the
    sink side). *)
Record Port := mkPort {
  data  : Z;
  valid : bool;
  sop   : bool;
  eop   : bool;
  empty : Z;
  error : Z;
  ready : bool
}.

(** The scheduled writes of one resumption. *)
Definition Writes := Port -> Port.

Definition no_writes : Writes := fun p => p.

(** [valid = sop = eop = empty = error = 0]: the idle block of
    [send_packet], [_send_task] and [set_idle]; [data] is not written. *)
Definition set_idle : Writes :=
  fun p => mkPort (data p) false false false 0%Z 0%Z (ready p).

(** [self.ready.value = int(v)] *)
Definition set_ready (v : bool) : Writes :=
  fun p => mkPort (data p) (valid p) (sop p) (eop p) (empty p) (error p) v.

(** The per-word block of [send_packet] / [_send_task]:
    [data = words[i]; empty = empty_last if i == n-1 else 0;
     error = int(error); sop = int(i == 0); eop = int(i == n-1); valid = 1]. *)
Definition drive_word (words : list Z) (empty_last : Z) (err : bool) (i : nat)
  : Writes :=
  fun p =>
    let n := length words in
    mkPort (nth i words 0%Z) true (Nat.eqb i 0) (Nat.eqb (S i) n)
           (if Nat.eqb (S i) n then empty_last else 0%Z) (Z.b2z err) (ready p).

(** [set_idle] leaves the port in the idle presentation. *)
Definition is_idle (p : Port) : bool :=
  negb (valid p) && negb (sop p) && negb (eop p)
  && Z.eqb (empty p) 0 && Z.eqb (error p) 0.

(** ** AvalonSTSource (drivers/avalon_st_driver.py) *)

Module Source.

(** The await points of [send_packet]:
    - [AwaitFirstEdge]: after the idle defaults, [await RisingEdge] (line 43);
    - [AwaitReady i]: word [i] presented, inside [while True: await
      RisingEdge; if ready: break] (lines 56-59);
    - [AwaitLastEdge]: idle written after the loop, final [await]
      (line 67);
    - [Returned]: the coroutine has returned. *)
Inductive pc_t := AwaitFirstEdge | AwaitReady (i : nat) | AwaitLastEdge | Returned.

(** The locals of one [send_packet] call. *)
Record t := mk {
  words      : list Z;
  empty_last : Z;
  err        : bool;
  pc         : pc_t
}.

Definition goto (s : t) (q : pc_t) : t := mk (words s) (empty_last s) (err s) q.

(** Calling [send_packet(words, empty_last, error)]: the code before the
    first [await]. *)
Definition send_packet (ws : list Z) (e : Z) (er : bool) : t * Writes :=
  (mk ws e er AwaitFirstEdge, set_idle).

(** Resumption at a rising edge; [p] is the port as sampled at the edge. *)
Definition resume (s : t) (p : Port) : t * Writes :=
  match pc s with
  | AwaitFirstEdge =>
      match words s with
      | [] => (goto s AwaitLastEdge, set_idle)
      | _ :: _ => (goto s (AwaitReady 0), drive_word (words s) (empty_last s) (err s) 0)
      end
  | AwaitReady i =>
      if ready p then
        if Nat.ltb (S i) (length (words s))
        then (goto s (AwaitReady (S i)),
              drive_word (words s) (empty_last s) (err s) (S i))
        else (goto s AwaitLastEdge, set_idle)
      else (s, no_writes)
  | AwaitLastEdge => (goto s Returned, no_writes)
  | Returned => (s, no_writes)
  end.

(** The word currently presented, if any. *)
Definition presenting (s : t) : option nat :=
  match pc s with AwaitReady i => Some i | _ => None end.

(** The source alone, against a peer that drives [ready] to [r] before
    each edge. *)
Fixpoint run (s : t) (p : Port) (rs : list bool) : t * Port :=
  match rs with
  | [] => (s, p)
  | r :: rs' =>
      let p1 := set_ready r p in
      let (s', w) := resume s p1 in
      run s' (w p1) rs'
  end.

(** [set_idle()] (lines 112-118): the idle block, no change to a
    running [send_packet]. *)
Definition set_idle_op (p : Port) : Port := set_idle p.

End Source.

(** ** AvalonSTSink (monitors/avalon_st_monitor.py) *)

Module Sink.

(** One entry of [_packet_metadata]: [{'empty': .., 'error': ..}]. *)
Record meta := mkMeta { m_empty : Z; m_error : Z }.

Record t := mk {
  packets         : list (list Z);
  cur_pkt         : list Z;
  in_pkt          : bool;
  packet_metadata : list meta
}.

Definition init : t := mk [] [] false [].

(** The body of the [while True] loop of [run], after
    [await RisingEdge(self.clk)]. *)
Definition edge (k : t) (p : Port) : t :=
  if valid p && ready p then
    let d := data p in
    let k1 := if sop p then mk (packets k) [] true (packet_metadata k) else k in
    let k2 := if in_pkt k1
              then mk (packets k1) (cur_pkt k1 ++ [d]) (in_pkt k1) (packet_metadata k1)
              else k1 in
    if eop p then
      let k3 := if in_pkt k2
                then mk (packets k2 ++ [cur_pkt k2]) (cur_pkt k2) (in_pkt k2)
                        (packet_metadata k2 ++ [mkMeta (empty p) (error p)])
                else k2 in
      mk (packets k3) [] false (packet_metadata k3)
    else k2
  else k.

(** [run(always_ready)]: the code before the loop. *)
Definition run_start (always_ready : bool) : Writes :=
  if always_ready then set_ready true else no_writes.

(** The sink over a sequence of sampled edges. *)
Fixpoint monitor (k : t) (ps : list Port) : t :=
  match ps with
  | [] => k
  | p :: ps' => monitor (edge k p) ps'
  end.

(** [clear()] *)
Definition clear (k : t) : t := mk [] [] false [].

(** [get_packet_count()] *)
Definition get_packet_count (k : t) : nat := length (packets k).

(** [get_last_packet_metadata()]: [_packet_metadata[-1]] if the list is
    non-empty, else [None]. *)
Definition get_last_packet_metadata (k : t) : option meta :=
  match packet_metadata k with
  | [] => None
  | m :: ms => Some (last ms m)
  end.

End Sink.

(** ** A source and a sink bound to the same port *)

Module Loopback.

(** One rising edge: both agents read the port as it is at the edge;
    the source's writes land after the edge (the always-ready sink
    writes nothing inside its loop). *)
Definition edge (s : Source.t) (k : Sink.t) (p : Port) : Source.t * Sink.t * Port :=
  let (s', w) := Source.resume s p in (s', Sink.edge k p, w p).

Fixpoint run (m : nat) (s : Source.t) (k : Sink.t) (p : Port)
  : Source.t * Sink.t * Port :=
  match m with
  | O => (s, k, p)
  | S m' => let '(s', k', p') := edge s k p in run m' s' k' p'
  end.

(** [cocotb.start_soon(sink.run(always_ready=True))] and
    [send_packet(ws, e, er)] both started before the same edge, on a
    fresh sink; [p0] is whatever the port held before. *)
Definition start (ws : list Z) (e : Z) (er : bool) (p0 : Port)
  : Source.t * Sink.t * Port :=
  let (s, w) := Source.send_packet ws e er in
  (s, Sink.init, Sink.run_start true (w p0)).

(** [m] edges from a configuration. *)
Definition exec (m : nat) (c : Source.t * Sink.t * Port) : Source.t * Sink.t * Port :=
  let '(s, k, p) := c in run m s k p.

End Loopback.

(** ** AvalonSTQueuedSource (drivers/avalon_st_driver.py) *)

Module QSource.

(** A queued [(words, empty_last, error)] tuple. *)
Abbreviation entry := (list Z * Z * bool)%type.

(** The await points of [_send_task]:
    - [NotStarted]: [queue_packet] has not started the task yet;
    - [AwaitTop]: an [await RisingEdge] whose resumption continues at the
      top of [while True] (lines 168, 180 and 218);
    - [AwaitReady n]: a word presented, in [await RisingEdge; while not
      ready: await RisingEdge] (lines 201-203), [n] being the local
      [n = len(words)];
    - [Crashed]: [words[i]] raised [IndexError] and the task ended. *)
Inductive pc_t := NotStarted | AwaitTop | AwaitReady (n : nat) | Crashed.

(** The object's fields [packet_queue], [current_packet],
    [current_word_idx], [_running], the task's await point, and a ghost
    log [started] (not a Python field) of the tuples popped by
    [packet_queue.pop(0)], in pop order. *)
Record t := mk {
  packet_queue     : list entry;
  current_packet   : option entry;
  current_word_idx : nat;
  running          : bool;
  pc               : pc_t;
  started          : list entry
}.

Definition init : t := mk [] None 0 false NotStarted [].

Definition goto (q : t) (c : pc_t) : t :=
  mk (packet_queue q) (current_packet q) (current_word_idx q) (running q) c (started q).

(** [queue_packet(words, empty_last, error)]: append, and on first use
    [cocotb.start_soon(self._send_task())], whose code up to its first
    [await] writes the idle defaults (lines 162-168). *)
Definition queue_packet (q : t) (en : entry) : t * Writes :=
  let qu := packet_queue q ++ [en] in
  if running q
  then (mk qu (current_packet q) (current_word_idx q) true (pc q) (started q), no_writes)
  else (mk qu (current_packet q) (current_word_idx q) true AwaitTop (started q), set_idle).

(** Lines 188-201: present [words[i]] of the in-flight tuple. *)
Definition present (q : t) (en : entry) : t * Writes :=
  let '(ws, e, er) := en in
  let n := length ws in
  let i := current_word_idx q in
  if Nat.ltb i n then (goto q (AwaitReady n), drive_word ws e er i)
  else (goto q Crashed, no_writes).

(** The top of [while True] (lines 171-201). *)
Definition from_top (q : t) : t * Writes :=
  match current_packet q with
  | Some en => present q en
  | None =>
      match packet_queue q with
      | [] => (goto q AwaitTop, set_idle)
      | en :: rest =>
          present (mk rest (Some en) 0 (running q) (pc q) (started q ++ [en])) en
      end
  end.

(** Resumption of [_send_task] at a rising edge. *)
Definition resume (q : t) (p : Port) : t * Writes :=
  match pc q with
  | NotStarted | Crashed => (q, no_writes)
  | AwaitTop => from_top q
  | AwaitReady n =>
      if ready p then
        let idx := S (current_word_idx q) in
        if Nat.leb n idx
        then (mk (packet_queue q) None 0 (running q) AwaitTop (started q), set_idle)
        else from_top (mk (packet_queue q) (current_packet q) idx (running q) (pc q) (started q))
      else (q, no_writes)
  end.

(** The in-flight tuple and word index while a word is presented. *)
Definition presenting (q : t) : option (option entry * nat) :=
  match pc q with
  | AwaitReady _ => Some (current_packet q, current_word_idx q)
  | _ => None
  end.

(** [get_queue_size()] *)
Definition get_queue_size (q : t) : nat :=
  length (packet_queue q) + match current_packet q with Some _ => 1 | None => 0 end.

(** [clear_queue()]: it writes no signal, so the port is returned as it
    was. *)
Definition clear_queue (q : t) (p : Port) : t * Port :=
  (mk [] None 0 (running q) (pc q) (started q), p).

(** [set_idle()] *)
Definition set_idle_op (q : t) (p : Port) : t * Port := (q, set_idle p).

(** What the scenario does between edges, or an edge at which the peer
    holds [ready] at [r]. *)
Inductive event := Enqueue (en : entry) | Clear | Edge (r : bool).

Fixpoint drive (q : t) (p : Port) (evs : list event) : t * Port :=
  match evs with
  | [] => (q, p)
  | Enqueue en :: evs' => let (q', w) := queue_packet q en in drive q' (w p) evs'
  | Clear :: evs' => let (q', p') := clear_queue q p in drive q' p' evs'
  | Edge r :: evs' =>
      let p1 := set_ready r p in
      let (q', w) := resume q p1 in drive q' (w p1) evs'
  end.

(** The tuples enqueued by an event list, in order. *)
Fixpoint enqueued (evs : list event) : list entry :=
  match evs with
  | [] => []
  | Enqueue en :: evs' => en :: enqueued evs'
  | _ :: evs' => enqueued evs'
  end.

Fixpoint no_clear (evs : list event) : bool :=
  match evs with
  | [] => true
  | Clear :: _ => false
  | _ :: evs' => no_clear evs'
  end.

Definition enqueue_all (q : t) (p : Port) (ens : list entry) : t * Port :=
  drive q p (map Enqueue ens).

End QSource.

(** ** A queued source and an always-ready [AvalonSTSink] on one port *)

Module QLoopback.

Definition edge (q : QSource.t) (k : Sink.t) (p : Port) : QSource.t * Sink.t * Port :=
  let (q', w) := QSource.resume q p in (q', Sink.edge k p, w p).

Fixpoint run (m : nat) (q : QSource.t) (k : Sink.t) (p : Port)
  : QSource.t * Sink.t * Port :=
  match m with
  | O => (q, k, p)
  | S m' => let '(q', k', p') := edge q k p in run m' q' k' p'
  end.

(** The scenario enqueues [ens] on a fresh queued source and starts the
    always-ready sink, all before the same edge. *)
Definition start (ens : list QSource.entry) (p0 : Port)
  : QSource.t * Sink.t * Port :=
  let (q, p) := QSource.enqueue_all QSource.init p0 ens in
  (q, Sink.init, Sink.run_start true p).

Definition exec (m : nat) (c : QSource.t * Sink.t * Port) : QSource.t * Sink.t * Port :=
  let '(q, k, p) := c in run m q k p.

(** Edges needed to drain: one idle-to-first-word edge per packet plus
    one edge per word. *)
Definition drain_time (ens : list QSource.entry) : nat :=
  fold_right (fun '(ws, _, _) acc => S (length ws) + acc) 0 ens.

End QLoopback.

(** ** AvalonSTSinkWithBackpressure (monitors/avalon_st_monitor.py) *)

Module BPSink.

Record t := mk {
  packets          : list (list Z);
  cur_pkt          : list Z;
  in_pkt           : bool;
  ready_state      : bool;
  last_data        : option Z;
  last_valid_ready : bool
}.

Definition init : t := mk [] [] false true None false.

(** The collection block of the pattern-driven loop (lines 166-207). *)
Definition collect (b : t) (p : Port) : t :=
  if valid p && ready p then
    let d := data p in
    let b1 := if sop p
              then mk (packets b) [] true (ready_state b) None false
              else b in
    let is_rising_edge := negb (last_valid_ready b1) in
    let data_changed :=
      match last_data b1 with Some x => negb (Z.eqb d x) | None => false end in
    let b2 := if (is_rising_edge || data_changed) && in_pkt b1
              then mk (packets b1) (cur_pkt b1 ++ [d]) (in_pkt b1) (ready_state b1)
                      (Some d) (last_valid_ready b1)
              else b1 in
    let b3 := mk (packets b2) (cur_pkt b2) (in_pkt b2) (ready_state b2)
                 (last_data b2) true in
    if eop p && in_pkt b3
    then mk (packets b3 ++ [cur_pkt b3]) [] false (ready_state b3) None
            (last_valid_ready b3)
    else b3
  else mk (packets b) (cur_pkt b) (in_pkt b) (ready_state b) (last_data b) false.

Definition with_ready_state (b : t) (v : bool) : t :=
  mk (packets b) (cur_pkt b) (in_pkt b) v (last_data b) (last_valid_ready b).

(** A [ready_pattern]: [(cycles, state)] segments. *)
Definition pattern : Type := list (Z * bool).

(** The locals [pattern_idx], [cycles_in_pattern]. *)
Record pstate := mkP { pattern_idx : nat; cycles_in_pattern : Z }.

(** [run(ready_pattern)] with a pattern: the code before the loop. *)
Definition pattern_start (pat : pattern) (b : t) : pstate * t * Writes :=
  match pat with
  | [] => (mkP 0 0, b, no_writes)
  | (_, st) :: _ => (mkP 0 0, with_ready_state b st, set_ready st)
  end.

(** The pattern update at the top of the loop (lines 145-164). *)
Definition pattern_update (pat : pattern) (ps : pstate) (b : t) : pstate * t * Writes :=
  let cyc := (cycles_in_pattern ps + 1)%Z in
  let idx := pattern_idx ps in
  if Nat.ltb idx (length pat) then
    let '(cycles, _) := nth idx pat (0%Z, false) in
    if Z.leb cycles cyc then
      let idx' := S idx in
      if Nat.ltb idx' (length pat) then
        let '(_, st) := nth idx' pat (0%Z, false) in
        (mkP idx' 0, with_ready_state b st, set_ready st)
      else
        match pat with
        | [] => (mkP 0 0, b, no_writes)
        | (_, st) :: _ => (mkP 0 0, with_ready_state b st, set_ready st)
        end
    else (mkP idx cyc, b, no_writes)
  else (mkP idx cyc, b, no_writes).

(** One iteration of the pattern-driven loop: the pattern writes [ready]
    (seen from the next edge on); the collection reads the sampled
    port. *)
Definition pattern_edge (pat : pattern) (ps : pstate) (b : t) (p : Port)
  : pstate * t * Writes :=
  let '(ps', b1, w) := pattern_update pat ps b in (ps', collect b1 p, w).

(** The collection of a run over given sampled edges (any readiness). *)
Fixpoint collect_all (b : t) (ps : list Port) : t :=
  match ps with
  | [] => b
  | p :: ps' => collect_all (collect b p) ps'
  end.

(** The loop of [run(ready_pattern=None)] (lines 116-132). *)
Definition plain_edge (b : t) (p : Port) : t :=
  if valid p && ready p then
    let d := data p in
    let b1 := if sop p
              then mk (packets b) [] true (ready_state b) (last_data b) (last_valid_ready b)
              else b in
    let b2 := if in_pkt b1
              then mk (packets b1) (cur_pkt b1 ++ [d]) (in_pkt b1) (ready_state b1)
                      (last_data b1) (last_valid_ready b1)
              else b1 in
    if eop p then
      let b3 := if in_pkt b2
                then mk (packets b2 ++ [cur_pkt b2]) (cur_pkt b2) (in_pkt b2) (ready_state b2)
                        (last_data b2) (last_valid_ready b2)
                else b2 in
      mk (packets b3) [] false (ready_state b3) (last_data b3) (last_valid_ready b3)
    else b2
  else b.

(** [run(ready_pattern=None)] before its loop (lines 113-115). *)
Definition plain_start (b : t) : t * Writes := (with_ready_state b true, set_ready true).

Fixpoint plain_all (b : t) (ps : list Port) : t :=
  match ps with
  | [] => b
  | p :: ps' => plain_all (plain_edge b p) ps'
  end.

(** [get_packet_count()] *)
Definition get_packet_count (b : t) : nat := length (packets b).

(** [clear()]: [_ready_state] is kept. *)
Definition clear (b : t) : t := mk [] [] false (ready_state b) None false.

End BPSink.

(** ** A source and a pattern-driven [AvalonSTSinkWithBackpressure] *)

Module BPLoopback.

Definition edge (pat : BPSink.pattern) (s : Source.t) (ps : BPSink.pstate)
  (b : BPSink.t) (p : Port) : Source.t * BPSink.pstate * BPSink.t * Port :=
  let (s', ws) := Source.resume s p in
  let '(ps', b', wb) := BPSink.pattern_edge pat ps b p in
  (s', ps', b', wb (ws p)).

Fixpoint run (pat : BPSink.pattern) (m : nat) (s : Source.t) (ps : BPSink.pstate)
  (b : BPSink.t) (p : Port) : Source.t * BPSink.pstate * BPSink.t * Port :=
  match m with
  | O => (s, ps, b, p)
  | S m' => let '(s', ps', b', p') := edge pat s ps b p in run pat m' s' ps' b' p'
  end.

(** [start_soon(sink.run(ready_pattern=pat))] and [send_packet(ws, e, er)]
    started before the same edge, on a fresh sink. *)
Definition start (pat : BPSink.pattern) (ws : list Z) (e : Z) (er : bool) (p0 : Port)
  : Source.t * BPSink.pstate * BPSink.t * Port :=
  let (s, w) := Source.send_packet ws e er in
  let '(ps, b, wb) := BPSink.pattern_start pat BPSink.init in
  (s, ps, b, wb (w p0)).

Definition exec (pat : BPSink.pattern) (m : nat)
  (c : Source.t * BPSink.pstate * BPSink.t * Port)
  : Source.t * BPSink.pstate * BPSink.t * Port :=
  let '(s, ps, b, p) := c in run pat m s ps b p.

(** The [ready] level sampled at each of [m] edges. *)
Fixpoint ready_seen_run (pat : BPSink.pattern) (m : nat) (s : Source.t) (ps : BPSink.pstate)
  (b : BPSink.t) (p : Port) : list bool :=
  match m with
  | O => []
  | S m' => ready p :: (let '(s', ps', b', p') := edge pat s ps b p in
                        ready_seen_run pat m' s' ps' b' p')
  end.

Definition ready_seen (pat : BPSink.pattern) (m : nat)
  (c : Source.t * BPSink.pstate * BPSink.t * Port) : list bool :=
  let '(s, ps, b, p) := c in ready_seen_run pat m s ps b p.

End BPLoopback.

(** ** create_packet (utils/test_utils.py) and config.py *)

Module Utils.

Open Scope Z_scope.

Definition BYTES_PER_WORD : Z := 8.
Definition MIN_PACKET_BYTES : Z := 46.
Definition MAX_PACKET_BYTES : Z := 1500.

(** The outcome of [create_packet]: [(packet_words, empty_last)] or the
    [ValueError] with the values its message reports. *)
Inductive result :=
| Ok (packet_words : list Z) (empty_last : Z)
| ValueError (num_bytes min_bytes max_bytes : Z).

(** The word generation (lines 203-216); [getrandbits k] stands for the
    value of [random.getrandbits(64)] drawn for word [k]. *)
Definition pattern_words (pattern : string) (start_value : Z)
  (getrandbits : nat -> Z) (num_words : nat) : list Z :=
  if String.eqb pattern "incrementing" then
    map (fun i => start_value + Z.of_nat i) (seq 0 num_words)
  else if String.eqb pattern "all_ones" then
    repeat 0xFFFFFFFFFFFFFFFF num_words
  else if String.eqb pattern "all_zeros" then
    repeat 0x0000000000000000 num_words
  else if String.eqb pattern "alternating" then
    map (fun i => if Nat.even i then 0xAAAAAAAAAAAAAAAA else 0x5555555555555555)
        (seq 0 num_words)
  else if String.eqb pattern "random" then
    map getrandbits (seq 0 num_words)
  else
    map (fun i => 0xDEADBEEFCAFEBABE + Z.of_nat i) (seq 0 num_words).

(** [words[-1] = last_word & mask] on a non-empty list. *)
Fixpoint mask_last (ws : list Z) (mask : Z) : list Z :=
  match ws with
  | [] => []
  | [w] => [Z.land w mask]
  | w :: ws' => w :: mask_last ws' mask
  end.

(** [create_packet(num_bytes, pattern, start_value)] for a given
    [num_bytes] (lines 192-225). *)
Definition create_packet (num_bytes : Z) (pattern : string) (start_value : Z)
  (getrandbits : nat -> Z) : result :=
  if (num_bytes <? MIN_PACKET_BYTES) || (MAX_PACKET_BYTES <? num_bytes) then
    ValueError num_bytes MIN_PACKET_BYTES MAX_PACKET_BYTES
  else
    let num_words := (num_bytes + BYTES_PER_WORD - 1) / BYTES_PER_WORD in
    let empty_last := num_words * BYTES_PER_WORD - num_bytes in
    let valid_bytes_last := BYTES_PER_WORD - empty_last in
    let words := pattern_words pattern start_value getrandbits (Z.to_nat num_words) in
    let words :=
      if (0 <? empty_last) && (0 <? num_words)
      then mask_last words (Z.shiftl 1 (valid_bytes_last * 8) - 1)
      else words in
    Ok words empty_last.

(** The byte length of a packet: [wordByteWidth * (len(words)-1) +
    (wordByteWidth - emptyCount)]. *)
Definition byte_length (ws : list Z) (empty_last : Z) : Z :=
  BYTES_PER_WORD * (Z.of_nat (length ws) - 1) + (BYTES_PER_WORD - empty_last).

(** config.py, lines 23-25. *)
Definition MIN_PACKET_WORDS : Z := MIN_PACKET_BYTES / BYTES_PER_WORD.
Definition MAX_PACKET_WORDS : Z := MAX_PACKET_BYTES / BYTES_PER_WORD.
Definition MAX_PACKET_LAST_EMPTY : Z := Z.modulo MAX_PACKET_BYTES BYTES_PER_WORD.

Definition PACKET_TIMEOUT_CYCLES : Z := 1000.

(** The loop of [wait_for_packet] (lines 150-153) from edge [t] with [k]
    iterations left; [count t] is [sink.get_packet_count()] as read after
    [t] edges.  The result and the number of edges awaited. *)
Fixpoint wait_loop (count : nat -> nat) (min_packets : Z) (t k : nat) : bool * nat :=
  match k with
  | O => (false, t)
  | S k' =>
      if min_packets <=? Z.of_nat (count t) then (true, t)
      else wait_loop count min_packets (S t) k'
  end.

(** [wait_for_packet(sink, timeout_cycles, min_packets)]; [range(n)] of a
    negative [n] is empty. *)
Definition wait_for_packet (count : nat -> nat) (timeout_cycles : option Z) (min_packets : Z)
  : bool * nat :=
  let timeout := match timeout_cycles with
                 | None => PACKET_TIMEOUT_CYCLES
                 | Some c => c
                 end in
  wait_loop count min_packets 0 (Z.to_nat timeout).

End Utils.

(** ** Specification predicates *)

(** What the synchronous source drives, as a function of its await point:
    while waiting on word [i], the word frame of word [i]; elsewhere the
    idle presentation. *)
Definition framed (ws : list Z) (e : Z) (er : bool) (s : Source.t) (p : Port) : Prop :=
  Source.words s = ws /\ Source.empty_last s = e /\ Source.err s = er /\
  match Source.pc s with
  | Source.AwaitReady i =>
      (i < length ws)%nat /\ valid p = true /\ data p = nth i ws 0%Z /\
      sop p = Nat.eqb i 0 /\ eop p = Nat.eqb (S i) (length ws) /\
      empty p = (if Nat.eqb (S i) (length ws) then e else 0%Z) /\
      error p = Z.b2z er
  | _ => is_idle p = true
  end.

(** The queued source's FIFO invariant against the list [E] of tuples
    enqueued so far: the popped tuples followed by the queue are [E], and
    the in-flight tuple is the last one popped. *)
Definition fifo_inv (E : list QSource.entry) (q : QSource.t) : Prop :=
  QSource.started q ++ QSource.packet_queue q = E /\
  (forall en, QSource.current_packet q = Some en ->
     exists pre, QSource.started q = pre ++ [en]).

(** The word list and the sink metadata of a queued tuple. *)
Definition entry_words (en : QSource.entry) : list Z := fst (fst en).

Definition entry_meta (en : QSource.entry) : Sink.meta :=
  Sink.mkMeta (snd (fst en)) (Z.b2z (snd en)).

(** The [ready] levels of one period of a pattern, edge by edge: a
    segment [(cycles, state)] lasts [max 1 cycles] edges. *)
Definition segment (x : Z * bool) : list bool :=
  let '(c, st) := x in repeat st (Z.to_nat (Z.max 1 c)).

Definition pattern_schedule (pat : BPSink.pattern) : list bool := flat_map segment pat.

(** The level a write leaves on [ready] when it held [r]. *)
Definition level_after (w : Writes) (r : bool) : bool :=
  ready (w (mkPort 0 false false false 0 0 r)).

(** The [ready] levels the pattern control alone produces. *)
Fixpoint pattern_levels (pat : BPSink.pattern) (m : nat) (ps : BPSink.pstate) (r : bool)
  : list bool :=
  match m with
  | O => []
  | S m' => r :: (let '(ps', _, w) := BPSink.pattern_update pat ps BPSink.init in
                  pattern_levels pat m' ps' (level_after w r))
  end.

(** ** Generic list facts *)

Lemma firstn_snoc (l : list Z) (i : nat) (d : Z) :
  (i < length l)%nat -> firstn i l ++ [nth i l d] = firstn (S i) l.
Proof.
  revert i; induction l as [|x l IH]; intros i Hi; simpl in Hi; [lia|].
  destruct i as [|i]; [reflexivity|].
  simpl. f_equal. apply IH. lia.
Qed.

(** ** The synchronous source: framing (C3) *)

Lemma set_ready_idle (r : bool) (p : Port) : is_idle (set_ready r p) = is_idle p.
Proof. destruct p; reflexivity. Qed.

Lemma set_idle_idle (p : Port) : is_idle (set_idle p) = true.
Proof. destruct p; reflexivity. Qed.

Lemma framed_resume (ws : list Z) (e : Z) (er : bool) (s : Source.t) (p : Port) (r : bool) :
  framed ws e er s p ->
  let p1 := set_ready r p in
  framed ws e er (fst (Source.resume s p1)) (snd (Source.resume s p1) p1).
Proof.
  destruct s as [sw se serr spc]; unfold framed, Source.resume, Source.goto, no_writes; simpl.
  intros (-> & -> & -> & Hpc).
  destruct spc as [|i| |]; simpl.
  - destruct ws as [|x xs]; simpl.
    + repeat split; apply set_idle_idle.
    + repeat split; simpl; try reflexivity; try lia.
  - destruct Hpc as (Hi & Hv & Hd & Hs & He & Hem & Her).
    destruct r; simpl.
    + destruct (Nat.ltb (S i) (length ws)) eqn:Hlt; simpl.
      * apply Nat.ltb_lt in Hlt. repeat split; try reflexivity; try lia.
      * repeat split; apply set_idle_idle.
    + destruct p; simpl in *; repeat split; auto.
  - repeat split; rewrite set_ready_idle; exact Hpc.
  - repeat split; rewrite set_ready_idle; exact Hpc.
Qed.

Lemma framed_run (ws : list Z) (e : Z) (er : bool) (rs : list bool) :
  forall s p, framed ws e er s p ->
  framed ws e er (fst (Source.run s p rs)) (snd (Source.run s p rs)).
Proof.
  induction rs as [|r rs IH]; intros s p H; simpl; [exact H|].
  pose proof (framed_resume ws e er s p r H) as H1; simpl in H1.
  destruct (Source.resume s (set_ready r p)) as [s' w] eqn:E.
  apply IH. exact H1.
Qed.

(** ** The synchronous source against an always-ready sink (C1) *)

Lemma loopback_run_add (a b : nat) (s : Source.t) (k : Sink.t) (p : Port) :
  Loopback.run (a + b) s k p =
  let '(s', k', p') := Loopback.run a s k p in Loopback.run b s' k' p'.
Proof.
  revert s k p; induction a as [|a IH]; intros s k p; simpl; [reflexivity|].
  destruct (Loopback.edge s k p) as [[s' k'] p']. apply IH.
Qed.

Lemma resume_ready_next (ws : list Z) (e : Z) (er : bool) (i : nat) (p : Port) :
  ready p = true -> (S i < length ws)%nat ->
  Source.resume (Source.mk ws e er (Source.AwaitReady i)) p =
  (Source.mk ws e er (Source.AwaitReady (S i)), drive_word ws e er (S i)).
Proof.
  intros Hr Hlt. apply Nat.ltb_lt in Hlt.
  unfold Source.resume, Source.goto; cbn [Source.pc Source.words Source.empty_last Source.err].
  rewrite Hr, Hlt. reflexivity.
Qed.

Lemma resume_ready_last (ws : list Z) (e : Z) (er : bool) (i : nat) (p : Port) :
  ready p = true -> S i = length ws ->
  Source.resume (Source.mk ws e er (Source.AwaitReady i)) p =
  (Source.mk ws e er Source.AwaitLastEdge, set_idle).
Proof.
  intros Hr Hn. assert (Hlt : Nat.ltb (S i) (length ws) = false) by (apply Nat.ltb_ge; lia).
  unfold Source.resume, Source.goto; cbn [Source.pc Source.words Source.empty_last Source.err].
  rewrite Hr, Hlt. reflexivity.
Qed.

(** The sink records a word that is not the last one. *)
Lemma sink_edge_mid (ws : list Z) (e : Z) (er : bool) (i : nat) (q : Port) P M :
  ready q = true -> (S i < length ws)%nat ->
  Sink.edge (Sink.mk P (firstn i ws) (negb (Nat.eqb i 0)) M) (drive_word ws e er i q) =
  Sink.mk P (firstn (S i) ws) true M.
Proof.
  intros Hr Hlt. assert (Heq : Nat.eqb (S i) (length ws) = false) by (apply Nat.eqb_neq; lia).
  unfold Sink.edge, drive_word; cbn [valid ready sop eop data empty error].
  rewrite Hr, Heq. rewrite <- (firstn_snoc ws i 0%Z) by lia.
  destruct (Nat.eqb i 0) eqn:Hi0; cbn.
  - apply Nat.eqb_eq in Hi0; subst i; reflexivity.
  - reflexivity.
Qed.

(** The sink records the last word and closes the packet. *)
Lemma sink_edge_last (ws : list Z) (e : Z) (er : bool) (i : nat) (q : Port) P M :
  ready q = true -> S i = length ws ->
  Sink.edge (Sink.mk P (firstn i ws) (negb (Nat.eqb i 0)) M) (drive_word ws e er i q) =
  Sink.mk (P ++ [ws]) [] false (M ++ [Sink.mkMeta e (Z.b2z er)]).
Proof.
  intros Hr Hn. assert (Heq : Nat.eqb (S i) (length ws) = true) by (apply Nat.eqb_eq; lia).
  unfold Sink.edge, drive_word; cbn [valid ready sop eop data empty error].
  rewrite Hr, Heq.
  assert (Hc : firstn i ws ++ [nth i ws 0%Z] = ws).
  { rewrite firstn_snoc by lia. apply firstn_all2. lia. }
  destruct (Nat.eqb i 0) eqn:Hi0; cbn.
  - apply Nat.eqb_eq in Hi0; subst i. cbn in Hc. rewrite Hc. reflexivity.
  - rewrite Hc. reflexivity.
Qed.

(** While word [i] is presented with [ready] high, one edge transfers it:
    the remaining [j] words follow on the next edges and the sink closes
    the packet with the last one. *)
Lemma loopback_transfer (ws : list Z) (e : Z) (er : bool) :
  forall j i P M q,
  S (i + j) = length ws -> ready q = true ->
  exists p', is_idle p' = true /\ ready p' = true /\
  Loopback.run (S j) (Source.mk ws e er (Source.AwaitReady i))
               (Sink.mk P (firstn i ws) (negb (Nat.eqb i 0)) M)
               (drive_word ws e er i q) =
  (Source.mk ws e er Source.AwaitLastEdge,
   Sink.mk (P ++ [ws]) [] false (M ++ [Sink.mkMeta e (Z.b2z er)]), p').
Proof.
  induction j as [|j IH]; intros i P M q Hn Hq.
  - exists (set_idle (drive_word ws e er i q)).
    split; [apply set_idle_idle|]. split; [exact Hq|].
    cbn [Loopback.run]. unfold Loopback.edge.
    rewrite resume_ready_last by (first [exact Hq | lia]).
    rewrite sink_edge_last by (first [exact Hq | lia]). reflexivity.
  - cbn [Loopback.run]. unfold Loopback.edge at 1.
    rewrite resume_ready_next by (first [exact Hq | lia]).
    rewrite sink_edge_mid by (first [exact Hq | lia]).
    apply (IH (S i) P M (drive_word ws e er i q)); [lia | exact Hq].
Qed.

Lemma is_idle_valid (p : Port) : is_idle p = true -> valid p = false.
Proof.
  intros H. destruct (valid p) eqn:E; [|reflexivity].
  unfold is_idle in H. rewrite E in H. discriminate.
Qed.

Lemma sink_edge_not_valid (k : Sink.t) (p : Port) : valid p = false -> Sink.edge k p = k.
Proof. intros H. unfold Sink.edge. rewrite H. reflexivity. Qed.

Lemma loopback_returned_stable (m : nat) (s : Source.t) (k : Sink.t) (p : Port) :
  Source.pc s = Source.Returned -> valid p = false -> Loopback.run m s k p = (s, k, p).
Proof.
  intros Hs Hp. induction m as [|m IH]; [reflexivity|].
  cbn [Loopback.run]. unfold Loopback.edge, Source.resume. rewrite Hs.
  rewrite sink_edge_not_valid by exact Hp. exact IH.
Qed.

(** C3: a call [send_packet(ws, empty_last, error)] presents, whatever
    the peer's readiness on each edge, while waiting on word [i] of the
    [n] words: [start] exactly when [i = 0], [end] exactly when
    [i = n-1], [emptyCount] equal to [empty_last] on word [n-1] and [0] on
    earlier words, [error] on every word, [valid] high and [data] the
    word; before the first word (right after the call) and after the last
    word is accepted the port is idle: [valid] low and [sop], [eop],
    [empty], [error] cleared. *)
Theorem send_packet_framing (ws : list Z) (e : Z) (er : bool) (p0 : Port) (rs : list bool) :
  let '(s0, w) := Source.send_packet ws e er in
  is_idle (w p0) = true /\
  framed ws e er (fst (Source.run s0 (w p0) rs)) (snd (Source.run s0 (w p0) rs)).
Proof.
  simpl. split; [apply set_idle_idle|].
  apply framed_run. unfold framed; simpl. repeat split.
Qed.

(** C1 (round trip): a source and an always-ready [AvalonSTSink] bound
    to the same port, both started before the same edge on a fresh sink.
    For every non-empty word list [ws] (any [emptyCount] and error flag,
    so in particular every packet inside the configured byte range),
    from [length ws + 2] edges on [send_packet] has returned and the sink
    holds exactly one packet, equal to [ws], with metadata
    [{'empty': e, 'error': int(er)}]. *)
Theorem loopback_round_trip (ws : list Z) (e : Z) (er : bool) (p0 : Port) (m : nat) :
  ws <> [] -> (length ws + 2 <= m)%nat ->
  let '(s, k, _) := Loopback.exec m (Loopback.start ws e er p0) in
  Source.pc s = Source.Returned /\ Sink.packets k = [ws] /\
  Sink.packet_metadata k = [Sink.mkMeta e (Z.b2z er)].
Proof.
  intros Hne Hm. destruct ws as [|x xs]; [congruence|].
  replace m with (1 + (S (length xs) + (1 + (m - (length (x :: xs) + 2))))) by (simpl in Hm |- *; lia).
  unfold Loopback.exec, Loopback.start, Source.send_packet, Sink.run_start.
  set (p1 := set_ready true (set_idle p0)).
  rewrite loopback_run_add. cbn [Loopback.run].
  unfold Loopback.edge at 1. unfold Source.resume at 1, Source.goto.
  cbn [Source.pc Source.words Source.empty_last Source.err].
  rewrite sink_edge_not_valid by reflexivity.
  rewrite loopback_run_add.
  destruct (loopback_transfer (x :: xs) e er (length xs) 0 [] [] p1 eq_refl eq_refl)
    as (p' & Hi & Hr & Hrun).
  change Sink.init with (Sink.mk [] (firstn 0 (x :: xs)) (negb (Nat.eqb 0 0)) []).
  rewrite Hrun. cbn [app].
  change (Loopback.run (1 + ?a)) with (Loopback.run (S a)). cbn [Loopback.run].
  unfold Loopback.edge at 1. unfold Source.resume at 1, Source.goto.
  cbn [Source.pc Source.words Source.empty_last Source.err].
  rewrite sink_edge_not_valid by (apply is_idle_valid; exact Hi).
  rewrite loopback_returned_stable by (first [reflexivity | apply is_idle_valid; exact Hi]).
  repeat split.
Qed.

(** ** Both drivers: readiness is checked one edge after presentation (C4) *)

Ltac close_present := intros H; (discriminate H || (inversion H; subst; auto)).

(** C4: for [AvalonSTSource.send_packet] and
    [AvalonSTQueuedSource._send_task]: (1) at an edge where a word is
    presented and [ready] is sampled low, the resumption changes nothing
    and writes nothing, so the word is held stable; (2) a resumption that
    starts presenting word [i] does so through its deferred writes, first
    visible at the following edge, and leaves the driver waiting for that
    following edge before [ready] is looked at; (3) at an edge where
    [ready] is sampled high the presented word is left, by exactly one
    position for the blocking source (next word or idle). *)
Theorem drivers_sample_ready_next_edge :
  (forall (s : Source.t) (p : Port),
     (Source.presenting s <> None -> ready p = false ->
        Source.resume s p = (s, no_writes)) /\
     (forall i, Source.presenting (fst (Source.resume s p)) = Some i ->
        Source.presenting s <> Some i ->
        snd (Source.resume s p) = drive_word (Source.words s) (Source.empty_last s) (Source.err s) i) /\
     (forall i, Source.presenting s = Some i -> ready p = true ->
        Source.presenting (fst (Source.resume s p)) = Some (S i) \/
        Source.presenting (fst (Source.resume s p)) = None)) /\
  (forall (q : QSource.t) (p : Port),
     (QSource.presenting q <> None -> ready p = false ->
        QSource.resume q p = (q, no_writes)) /\
     (forall ws e er i, QSource.presenting (fst (QSource.resume q p)) = Some (Some (ws, e, er), i) ->
        QSource.presenting q <> Some (Some (ws, e, er), i) ->
        snd (QSource.resume q p) = drive_word ws e er i) /\
     (forall c i, QSource.presenting q = Some (c, i) -> ready p = true ->
        QSource.presenting (fst (QSource.resume q p)) <> Some (c, i))).
Proof.
  split.
  - intros [sw se serr spc] p.
    unfold Source.presenting, Source.resume, Source.goto; cbn [Source.pc Source.words Source.empty_last Source.err].
    repeat split.
    + destruct spc; try congruence. intros _ Hr. rewrite Hr. reflexivity.
    + intros i. destruct spc as [|j| |]; cbn [Source.pc].
      * destruct sw; cbn [Source.pc]; intros H; inversion H; subst; auto; congruence.
      * destruct (ready p); [|cbn [fst Source.pc]; congruence].
        destruct (Nat.ltb (S j) (length sw)); cbn [fst Source.pc]; intros H; inversion H; subst; auto.
      * cbn [fst Source.pc]; congruence.
      * cbn [fst Source.pc]; congruence.
    + intros i. destruct spc as [|j| |]; cbn [Source.pc]; try congruence.
      intros H Hr; inversion H; subst. rewrite Hr.
      destruct (Nat.ltb (S i) (length sw)); cbn; auto.
  - intros [qu cur idx run qpc st] p.
    unfold QSource.presenting, QSource.resume; cbn [QSource.pc QSource.current_packet QSource.current_word_idx].
    repeat split.
    + destruct qpc; try congruence. intros _ Hr. rewrite Hr. reflexivity.
    + intros ws e er i. destruct qpc as [| |n|]; try (cbn; congruence).
      * unfold QSource.from_top; cbn [QSource.current_packet QSource.packet_queue].
        destruct cur as [[[cws ce] cer]|].
        -- unfold QSource.present; cbn [QSource.current_word_idx].
           destruct (Nat.ltb idx (length cws)); cbn; close_present.
        -- destruct qu as [|[[cws ce] cer] rest]; [cbn; congruence|].
           unfold QSource.present; cbn [QSource.current_word_idx].
           destruct (Nat.ltb 0 (length cws)); cbn; close_present.
      * destruct (ready p); [|cbn; congruence].
        destruct (Nat.leb n (S idx)); [cbn; congruence|].
        unfold QSource.from_top; cbn [QSource.current_packet QSource.packet_queue].
        destruct cur as [[[cws ce] cer]|].
        -- unfold QSource.present; cbn [QSource.current_word_idx].
           destruct (Nat.ltb (S idx) (length cws)); cbn; close_present.
        -- destruct qu as [|[[cws ce] cer] rest]; [cbn; congruence|].
           unfold QSource.present; cbn [QSource.current_word_idx].
           destruct (Nat.ltb 0 (length cws)); cbn; close_present.
    + intros c i. destruct qpc as [| |n|]; try (cbn; congruence).
      intros H Hr; inversion H; subst. rewrite Hr.
      destruct (Nat.leb n (S i)); [cbn; congruence|].
      unfold QSource.from_top; cbn [QSource.current_packet QSource.packet_queue].
      destruct c as [[[cws ce] cer]|].
      * unfold QSource.present; cbn [QSource.current_word_idx].
        destruct (Nat.ltb (S i) (length cws)); cbn; [|congruence].
        intros E; inversion E; lia.
      * destruct qu as [|[[cws ce] cer] rest]; [cbn; congruence|].
        unfold QSource.present; cbn [QSource.current_word_idx].
        destruct (Nat.ltb 0 (length cws)); cbn; congruence.
Qed.

(** ** The queued source: FIFO order and queue size (C5) *)

Lemma present_keeps (q : QSource.t) (en : QSource.entry) :
  QSource.packet_queue (fst (QSource.present q en)) = QSource.packet_queue q /\
  QSource.current_packet (fst (QSource.present q en)) = QSource.current_packet q /\
  QSource.started (fst (QSource.present q en)) = QSource.started q.
Proof.
  destruct en as [[ws e] er]. unfold QSource.present.
  destruct (Nat.ltb (QSource.current_word_idx q) (length ws)); cbn; auto.
Qed.

Lemma from_top_fifo (E : list QSource.entry) (q : QSource.t) :
  fifo_inv E q -> fifo_inv E (fst (QSource.from_top q)).
Proof.
  intros [H1 H2]. unfold QSource.from_top.
  destruct (QSource.current_packet q) as [en|] eqn:Ec.
  - destruct (present_keeps q en) as (A & B & C).
    split; [rewrite A, C; exact H1|]. rewrite B, C, Ec. exact H2.
  - destruct (QSource.packet_queue q) as [|en rest] eqn:Eq.
    + split; cbn; [rewrite Eq; exact H1|]. rewrite Ec. exact H2.
    + destruct (present_keeps (QSource.mk rest (Some en) 0 (QSource.running q) (QSource.pc q)
                                (QSource.started q ++ [en])) en) as (A & B & C).
      cbn in A, B, C. split.
      * rewrite A, C, <- app_assoc. exact H1.
      * rewrite B, C. intros en' Hen; inversion Hen; subst. eexists; reflexivity.
Qed.

Lemma resume_fifo (E : list QSource.entry) (q : QSource.t) (p : Port) :
  fifo_inv E q -> fifo_inv E (fst (QSource.resume q p)).
Proof.
  intros H. unfold QSource.resume.
  destruct (QSource.pc q) as [| |n|]; try exact H.
  - apply from_top_fifo, H.
  - destruct (ready p); [|exact H].
    destruct (Nat.leb n (S (QSource.current_word_idx q))).
    + destruct H as [H1 H2]. split; [exact H1|]. cbn; congruence.
    + apply from_top_fifo. destruct H as [H1 H2]. split; [exact H1|exact H2].
Qed.

Lemma queue_packet_fifo (E : list QSource.entry) (q : QSource.t) (en : QSource.entry) :
  fifo_inv E q -> fifo_inv (E ++ [en]) (fst (QSource.queue_packet q en)).
Proof.
  intros [H1 H2]. unfold QSource.queue_packet.
  destruct (QSource.running q); unfold fifo_inv; cbn; (split; [rewrite app_assoc, H1; reflexivity | exact H2]).
Qed.

Lemma drive_fifo (evs : list QSource.event) :
  forall E q p, QSource.no_clear evs = true -> fifo_inv E q ->
  fifo_inv (E ++ QSource.enqueued evs) (fst (QSource.drive q p evs)).
Proof.
  induction evs as [|ev evs IH]; intros E q p Hnc H; cbn.
  - rewrite app_nil_r. exact H.
  - destruct ev as [en| |r]; cbn in Hnc; try discriminate.
    + destruct (QSource.queue_packet q en) as [q' w] eqn:Eq.
      replace (E ++ en :: QSource.enqueued evs) with ((E ++ [en]) ++ QSource.enqueued evs)
        by (rewrite <- app_assoc; reflexivity).
      apply IH; [exact Hnc|].
      pose proof (queue_packet_fifo E q en H) as Hq. rewrite Eq in Hq. exact Hq.
    + destruct (QSource.resume q (set_ready r p)) as [q' w] eqn:Eq.
      apply IH; [exact Hnc|].
      pose proof (resume_fifo E q (set_ready r p) H) as Hq. rewrite Eq in Hq. exact Hq.
Qed.

(** ** The queued source against an always-ready sink (C5) *)

Lemma qloopback_run_add (a b : nat) (q : QSource.t) (k : Sink.t) (p : Port) :
  QLoopback.run (a + b) q k p =
  let '(q', k', p') := QLoopback.run a q k p in QLoopback.run b q' k' p'.
Proof.
  revert q k p; induction a as [|a IH]; intros q k p; simpl; [reflexivity|].
  destruct (QLoopback.edge q k p) as [[q' k'] p']. apply IH.
Qed.

Lemma qresume_ready_next (ws : list Z) (e : Z) (er : bool) (rest : list QSource.entry) i b (st : list QSource.entry) (p : Port) :
  ready p = true -> (S i < length ws)%nat ->
  QSource.resume (QSource.mk rest (Some (ws, e, er)) i b (QSource.AwaitReady (length ws)) st) p =
  (QSource.mk rest (Some (ws, e, er)) (S i) b (QSource.AwaitReady (length ws)) st,
   drive_word ws e er (S i)).
Proof.
  intros Hr Hlt.
  assert (H1 : Nat.leb (length ws) (S i) = false) by (apply Nat.leb_gt; lia).
  assert (H2 : Nat.ltb (S i) (length ws) = true) by (apply Nat.ltb_lt; lia).
  unfold QSource.resume; cbn [QSource.pc QSource.current_word_idx].
  rewrite Hr, H1. unfold QSource.from_top, QSource.present.
  cbn [QSource.current_packet QSource.current_word_idx QSource.packet_queue].
  rewrite H2. reflexivity.
Qed.

Lemma qresume_ready_last (ws : list Z) (e : Z) (er : bool) (rest : list QSource.entry) i b (st : list QSource.entry) (p : Port) :
  ready p = true -> S i = length ws ->
  QSource.resume (QSource.mk rest (Some (ws, e, er)) i b (QSource.AwaitReady (length ws)) st) p =
  (QSource.mk rest None 0 b QSource.AwaitTop st, set_idle).
Proof.
  intros Hr Hn.
  assert (H1 : Nat.leb (length ws) (S i) = true) by (apply Nat.leb_le; lia).
  unfold QSource.resume; cbn [QSource.pc QSource.current_word_idx].
  rewrite Hr, H1. reflexivity.
Qed.

Lemma qresume_pop (ws : list Z) (e : Z) (er : bool) (rest : list QSource.entry) idx b (st : list QSource.entry) (p : Port) :
  ws <> [] ->
  QSource.resume (QSource.mk ((ws, e, er) :: rest) None idx b QSource.AwaitTop st) p =
  (QSource.mk rest (Some (ws, e, er)) 0 b (QSource.AwaitReady (length ws)) (st ++ [(ws, e, er)]),
   drive_word ws e er 0).
Proof.
  intros Hne. destruct ws as [|x xs]; [congruence|]. reflexivity.
Qed.

Lemma qresume_empty idx b st (p : Port) :
  QSource.resume (QSource.mk [] None idx b QSource.AwaitTop st) p =
  (QSource.mk [] None idx b QSource.AwaitTop st, set_idle).
Proof. reflexivity. Qed.

Lemma qloopback_transfer (ws : list Z) (e : Z) (er : bool) (rest : list QSource.entry) b (st : list QSource.entry) :
  forall j i P M q,
  S (i + j) = length ws -> ready q = true ->
  exists p', is_idle p' = true /\ ready p' = true /\
  QLoopback.run (S j)
    (QSource.mk rest (Some (ws, e, er)) i b (QSource.AwaitReady (length ws)) st)
    (Sink.mk P (firstn i ws) (negb (Nat.eqb i 0)) M) (drive_word ws e er i q) =
  (QSource.mk rest None 0 b QSource.AwaitTop st,
   Sink.mk (P ++ [ws]) [] false (M ++ [Sink.mkMeta e (Z.b2z er)]), p').
Proof.
  induction j as [|j IH]; intros i P M q Hn Hq.
  - exists (set_idle (drive_word ws e er i q)).
    split; [apply set_idle_idle|]. split; [exact Hq|].
    cbn [QLoopback.run]. unfold QLoopback.edge.
    rewrite qresume_ready_last by (first [exact Hq | lia]).
    rewrite sink_edge_last by (first [exact Hq | lia]). reflexivity.
  - cbn [QLoopback.run]. unfold QLoopback.edge at 1.
    rewrite qresume_ready_next by (first [exact Hq | lia]).
    rewrite sink_edge_mid by (first [exact Hq | lia]).
    apply (IH (S i) P M (drive_word ws e er i q)); [lia | exact Hq].
Qed.

(** One queued packet: an edge to pop and present its first word, then
    one edge per word. *)
Lemma qloopback_packet (ws : list Z) (e : Z) (er : bool) (rest : list QSource.entry) idx b (st : list QSource.entry) P M (p : Port) :
  ws <> [] -> valid p = false -> ready p = true ->
  exists p', is_idle p' = true /\ ready p' = true /\
  QLoopback.run (S (length ws))
    (QSource.mk ((ws, e, er) :: rest) None idx b QSource.AwaitTop st) (Sink.mk P [] false M) p =
  (QSource.mk rest None 0 b QSource.AwaitTop (st ++ [(ws, e, er)]),
   Sink.mk (P ++ [ws]) [] false (M ++ [Sink.mkMeta e (Z.b2z er)]), p').
Proof.
  intros Hne Hv Hr.
  destruct ws as [|x xs] eqn:Ews; [congruence|]. rewrite <- Ews in *.
  cbn [QLoopback.run]. unfold QLoopback.edge at 1.
  rewrite qresume_pop by exact Hne.
  rewrite sink_edge_not_valid by exact Hv.
  assert (Hl : length ws = S (length xs)) by (subst; reflexivity).
  destruct (qloopback_transfer ws e er rest b (st ++ [(ws, e, er)]) (length xs) 0 P M p)
    as (p' & Hi & Hr' & Hrun); [lia | exact Hr |].
  exists p'. split; [exact Hi|]. split; [exact Hr'|].
  assert (Hc : QLoopback.run (length ws) = QLoopback.run (S (length xs))) by (rewrite Hl; reflexivity).
  rewrite Hc. exact Hrun.
Qed.

Lemma qloopback_drain (ens : list QSource.entry) :
  forall idx b st P M p,
  Forall (fun en => entry_words en <> []) ens -> valid p = false -> ready p = true ->
  exists idx' p', valid p' = false /\ ready p' = true /\
  QLoopback.run (QLoopback.drain_time ens)
    (QSource.mk ens None idx b QSource.AwaitTop st) (Sink.mk P [] false M) p =
  (QSource.mk [] None idx' b QSource.AwaitTop (st ++ ens),
   Sink.mk (P ++ map entry_words ens) [] false (M ++ map entry_meta ens), p').
Proof.
  induction ens as [|[[ws e] er] rest IH]; intros idx b st P M p Hall Hv Hr.
  - exists idx, p. split; [exact Hv|]. split; [exact Hr|].
    rewrite !app_nil_r. reflexivity.
  - inversion Hall as [|? ? Hne Hrest]; subst. unfold entry_words in Hne; cbn in Hne.
    destruct (qloopback_packet ws e er rest idx b st P M p Hne Hv Hr) as (p1 & Hi1 & Hr1 & Hrun1).
    destruct (IH 0 b (st ++ [(ws, e, er)]) (P ++ [ws]) (M ++ [Sink.mkMeta e (Z.b2z er)]) p1
                Hrest (is_idle_valid p1 Hi1) Hr1) as (idx' & p' & Hv' & Hr' & Hrun).
    exists idx', p'. split; [exact Hv'|]. split; [exact Hr'|].
    change (QLoopback.drain_time ((ws, e, er) :: rest))
      with (S (length ws) + QLoopback.drain_time rest).
    rewrite qloopback_run_add, Hrun1, Hrun. rewrite <- !app_assoc. reflexivity.
Qed.

Lemma qloopback_idle_stable (m : nat) :
  forall idx b st k p, valid p = false ->
  exists p', QLoopback.run m (QSource.mk [] None idx b QSource.AwaitTop st) k p =
             (QSource.mk [] None idx b QSource.AwaitTop st, k, p').
Proof.
  induction m as [|m IH]; intros idx b st k p Hv; [exists p; reflexivity|].
  cbn [QLoopback.run]. unfold QLoopback.edge at 1.
  rewrite qresume_empty, sink_edge_not_valid by exact Hv.
  apply IH. reflexivity.
Qed.

Lemma qloopback_not_started (m : nat) (k : Sink.t) (p : Port) :
  valid p = false -> QLoopback.run m QSource.init k p = (QSource.init, k, p).
Proof.
  intros Hv. induction m as [|m IH]; [reflexivity|].
  cbn [QLoopback.run]. unfold QLoopback.edge at 1.
  rewrite sink_edge_not_valid by exact Hv. exact IH.
Qed.

Lemma drive_enqueue_running (ens : list QSource.entry) :
  forall qu p,
  QSource.drive (QSource.mk qu None 0 true QSource.AwaitTop []) p (map QSource.Enqueue ens) =
  (QSource.mk (qu ++ ens) None 0 true QSource.AwaitTop [], p).
Proof.
  induction ens as [|en ens IH]; intros qu p; cbn.
  - rewrite app_nil_r. reflexivity.
  - rewrite IH, <- app_assoc. reflexivity.
Qed.

Lemma enqueued_map (ens : list QSource.entry) :
  QSource.enqueued (map QSource.Enqueue ens) = ens.
Proof. induction ens as [|en ens IH]; cbn; [reflexivity | rewrite IH; reflexivity]. Qed.

(** C5: (1) for every sequence of [queue_packet] calls and edges (any
    readiness, no [clear_queue]) on a fresh [AvalonSTQueuedSource], at
    every point the tuples popped so far by the drain task followed by
    the queue are exactly the enqueued tuples in enqueue order (FIFO
    removal), the in-flight tuple is the last one popped, and
    [get_queue_size()] is the number of enqueued but not yet popped
    tuples plus one when a tuple is in flight; (2) [N] non-empty packets
    enqueued before an edge, drained into an always-ready [AvalonSTSink]
    on the same port (with the port idle before if [N = 0]): from
    [drain_time] edges on, [get_queue_size() = 0], all [N] were popped in
    order, and the sink holds exactly the [N] packets, in enqueue order,
    with their metadata. *)
Theorem queued_source_fifo_drain :
  (forall (evs : list QSource.event) (p0 : Port),
     QSource.no_clear evs = true ->
     let q := fst (QSource.drive QSource.init p0 evs) in
     QSource.started q ++ QSource.packet_queue q = QSource.enqueued evs /\
     (forall en, QSource.current_packet q = Some en ->
        exists pre, QSource.started q = pre ++ [en]) /\
     QSource.get_queue_size q =
       (length (QSource.enqueued evs) - length (QSource.started q) +
        match QSource.current_packet q with Some _ => 1 | None => 0 end)%nat) /\
  (forall (ens : list QSource.entry) (p0 : Port) (m : nat),
     Forall (fun en => entry_words en <> []) ens ->
     (ens <> [] \/ valid p0 = false) ->
     (QLoopback.drain_time ens <= m)%nat ->
     let '(q, k, _) := QLoopback.exec m (QLoopback.start ens p0) in
     QSource.get_queue_size q = 0%nat /\ QSource.started q = ens /\
     Sink.packets k = map entry_words ens /\
     Sink.packet_metadata k = map entry_meta ens).
Proof.
  split.
  - intros evs p0 Hnc q.
    assert (H : fifo_inv ([] ++ QSource.enqueued evs) q).
    { apply drive_fifo; [exact Hnc|]. split; [reflexivity|]. cbn; congruence. }
    destruct H as [H1 H2]. cbn in H1.
    split; [exact H1|]. split; [exact H2|].
    unfold QSource.get_queue_size. rewrite <- H1, length_app. lia.
  - intros ens p0 m Hall Hcase Hm.
    unfold QLoopback.exec, QLoopback.start, QSource.enqueue_all.
    destruct ens as [|en rest].
    + destruct Hcase as [Hc|Hv]; [congruence|].
      cbn [map QSource.drive Sink.run_start].
      rewrite qloopback_not_started by (destruct p0; exact Hv).
      repeat split.
    + cbn [map QSource.drive].
      unfold QSource.queue_packet at 1. cbn [QSource.init QSource.running QSource.packet_queue app
        QSource.current_packet QSource.current_word_idx QSource.started QSource.pc].
      rewrite (drive_enqueue_running rest [en]). cbn [app Sink.run_start].
      set (p1 := set_ready true (set_idle p0)).
      change Sink.init with (Sink.mk [] [] false []).
      replace m with (QLoopback.drain_time (en :: rest) + (m - QLoopback.drain_time (en :: rest)))
        by lia.
      rewrite qloopback_run_add.
      destruct (qloopback_drain (en :: rest) 0 true [] [] [] p1 Hall eq_refl eq_refl)
        as (idx' & p' & Hv' & Hr' & Hrun).
      rewrite Hrun.
      destruct (qloopback_idle_stable (m - QLoopback.drain_time (en :: rest)) idx' true
                  ([] ++ en :: rest) (Sink.mk ([] ++ map entry_words (en :: rest)) [] false
                  ([] ++ map entry_meta (en :: rest))) p' Hv') as (p'' & Hst).
      rewrite Hst. repeat split.
Qed.

(** ** [clear_queue] (C6) *)

(** C6 (as the code has it): [clear_queue()] empties [packet_queue],
    clears [current_packet] and [current_word_idx], leaves [_running] and
    the task's await point as they were, and writes no signal: the port
    comes out unchanged.  At the task's next resumption (nothing enqueued
    in between) the port is driven idle and the task waits at the top of
    its loop with an empty queue, when the task waited at the top of its
    loop, or waited on a presented word and [ready] is sampled high; when
    [ready] is sampled low the task stays put and writes nothing, so a
    presented word stays on the port. *)
Theorem clear_queue_keeps_port (q : QSource.t) (p : Port) :
  let '(q', p') := QSource.clear_queue q p in
  QSource.packet_queue q' = [] /\ QSource.current_packet q' = None /\
  QSource.current_word_idx q' = 0%nat /\ QSource.get_queue_size q' = 0%nat /\
  QSource.running q' = QSource.running q /\ QSource.pc q' = QSource.pc q /\ p' = p /\
  (forall r : bool,
     let p1 := set_ready r p' in
     let '(q'', w) := QSource.resume q' p1 in
     match QSource.pc q with
     | QSource.AwaitTop =>
         is_idle (w p1) = true /\ QSource.pc q'' = QSource.AwaitTop /\
         QSource.get_queue_size q'' = 0%nat
     | QSource.AwaitReady _ =>
         if r then
           is_idle (w p1) = true /\ QSource.pc q'' = QSource.AwaitTop /\
           QSource.get_queue_size q'' = 0%nat
         else q'' = q' /\ w p1 = p1
     | _ => q'' = q' /\ w p1 = p1
     end).
Proof.
  destruct q as [qu cur idx run qpc st]. unfold QSource.clear_queue.
  cbn [QSource.running QSource.pc QSource.started].
  repeat split. intros r.
  unfold QSource.resume; cbn [QSource.pc].
  destruct qpc as [| |n|]; cbn [QSource.current_packet QSource.packet_queue].
  - split; reflexivity.
  - unfold QSource.from_top; cbn. split; [reflexivity|split; reflexivity].
  - destruct r; cbn [ready set_ready QSource.current_word_idx].
    + destruct (Nat.leb n 1); cbn; (split; [reflexivity|split; reflexivity]).
    + split; reflexivity.
  - split; reflexivity.
Qed.

(** C6, the claim as stated fails: one tuple enqueued, one edge (the task
    presents its first word), then [clear_queue()]: the queue size is 0
    but the port still drives [valid] and [sop] high. *)
Lemma clear_queue_port_not_idle :
  let '(q, p) := QSource.drive QSource.init (mkPort 0 false false false 0 0 false)
                   [QSource.Enqueue ([1; 2]%Z, 0%Z, false); QSource.Edge true; QSource.Clear] in
  QSource.get_queue_size q = 0%nat /\ valid p = true /\ sop p = true.
Proof. vm_compute. repeat split. Qed.

(** ** [AvalonSTSink]: tolerated protocol violations (C7) *)

Lemma monitor_app (k : Sink.t) (l1 l2 : list Port) :
  Sink.monitor k (l1 ++ l2) = Sink.monitor (Sink.monitor k l1) l2.
Proof. revert k; induction l1 as [|p l1 IH]; intros k; simpl; auto. Qed.

(** Outside a packet the assembly buffer is empty. *)
Lemma sink_edge_idle_empty (k : Sink.t) (p : Port) :
  (Sink.in_pkt k = false -> Sink.cur_pkt k = []) ->
  Sink.in_pkt (Sink.edge k p) = false -> Sink.cur_pkt (Sink.edge k p) = [].
Proof.
  destruct k as [P C b M]; cbn [Sink.in_pkt Sink.cur_pkt]. intros H.
  unfold Sink.edge. destruct (valid p && ready p); [|exact H].
  destruct (sop p), b, (eop p); cbn; try discriminate; auto.
Qed.

Lemma sink_reachable_idle_empty (pre : list Port) :
  Sink.in_pkt (Sink.monitor Sink.init pre) = false ->
  Sink.cur_pkt (Sink.monitor Sink.init pre) = [].
Proof.
  assert (G : forall k, (Sink.in_pkt k = false -> Sink.cur_pkt k = []) ->
            Sink.in_pkt (Sink.monitor k pre) = false ->
            Sink.cur_pkt (Sink.monitor k pre) = []).
  { induction pre as [|p pre IH]; intros k Hk; simpl; [exact Hk|].
    apply IH. apply sink_edge_idle_empty. exact Hk. }
  apply G. reflexivity.
Qed.

(** C7: [AvalonSTSink.run] after any sequence [pre] of monitored edges,
    outside a packet.  An accepted word ([valid] and [ready] high) with
    [sop] low, whether [eop] is high (end without an active packet) or
    low (data without a start), leaves the assembler exactly as it was:
    still idle, nothing appended to [packets] or [_packet_metadata], and
    no exception (the model is total).  So the monitored history with
    that word is the history without it, whatever edges [post] follow. *)
Theorem sink_ignores_words_outside_packet (pre post : list Port) (o : Port) :
  valid o && ready o = true -> sop o = false ->
  Sink.in_pkt (Sink.monitor Sink.init pre) = false ->
  Sink.edge (Sink.monitor Sink.init pre) o = Sink.monitor Sink.init pre /\
  Sink.monitor Sink.init (pre ++ o :: post) = Sink.monitor Sink.init (pre ++ post).
Proof.
  intros Hvr Hs Hi.
  pose proof (sink_reachable_idle_empty pre Hi) as Hc.
  assert (E : Sink.edge (Sink.monitor Sink.init pre) o = Sink.monitor Sink.init pre).
  { destruct (Sink.monitor Sink.init pre) as [P C b M]; cbn in Hi, Hc; subst.
    unfold Sink.edge. rewrite Hvr, Hs. cbn. destruct (eop o); reflexivity. }
  split; [exact E|].
  rewrite !monitor_app. simpl. rewrite E. reflexivity.
Qed.

(** ** [create_packet] (C8) *)

Lemma pattern_words_length (pat : string) (sv : Z) (g : nat -> Z) (n : nat) :
  length (Utils.pattern_words pat sv g n) = n.
Proof.
  unfold Utils.pattern_words.
  repeat match goal with |- context [if ?c then _ else _] => destruct c end;
    rewrite ?length_map, ?repeat_length, ?length_seq; reflexivity.
Qed.

Lemma mask_last_length (ws : list Z) (mask : Z) :
  length (Utils.mask_last ws mask) = length ws.
Proof.
  induction ws as [|w ws IH]; [reflexivity|].
  destruct ws as [|w' ws]; [reflexivity|].
  change (length (w :: Utils.mask_last (w' :: ws) mask) = S (length (w' :: ws))).
  cbn [length] in *. rewrite IH. reflexivity.
Qed.

(** C8: [create_packet(num_bytes, ...)] is a function of its arguments
    with no simulation effect; it raises [ValueError] (reporting the size
    and the range 46-1500) exactly when [num_bytes < 46] or
    [num_bytes > 1500]; otherwise it returns [(words, empty_last)] with
    [8 * (len(words) - 1) + (8 - empty_last) = num_bytes] and
    [0 <= empty_last < 8].  In particular 46 and 1500 are accepted and 45
    and 1501 are refused, for every pattern and start value. *)
Theorem create_packet_size (nb : Z) (pat : string) (sv : Z) (g : nat -> Z) :
  match Utils.create_packet nb pat sv g with
  | Utils.ValueError n mn mx =>
      (nb < 46 \/ 1500 < nb)%Z /\ n = nb /\ mn = 46%Z /\ mx = 1500%Z
  | Utils.Ok ws e =>
      (46 <= nb <= 1500)%Z /\ Utils.byte_length ws e = nb /\ (0 <= e < 8)%Z
  end /\
  ((46 <= nb <= 1500)%Z <-> exists ws e, Utils.create_packet nb pat sv g = Utils.Ok ws e) /\
  (forall n, n = 46%Z \/ n = 1500%Z -> exists ws e, Utils.create_packet n pat sv g = Utils.Ok ws e) /\
  (forall n, n = 45%Z \/ n = 1501%Z -> exists mn mx, Utils.create_packet n pat sv g = Utils.ValueError n mn mx).
Proof.
  assert (Hgen : forall n, match Utils.create_packet n pat sv g with
    | Utils.ValueError n' mn mx => (n < 46 \/ 1500 < n)%Z /\ n' = n /\ mn = 46%Z /\ mx = 1500%Z
    | Utils.Ok ws e => (46 <= n <= 1500)%Z /\ Utils.byte_length ws e = n /\ (0 <= e < 8)%Z
    end).
  { intros n. unfold Utils.create_packet, Utils.MIN_PACKET_BYTES, Utils.MAX_PACKET_BYTES,
      Utils.BYTES_PER_WORD.
    destruct ((n <? 46)%Z || (1500 <? n)%Z) eqn:Hr.
    - apply orb_true_iff in Hr. rewrite !Z.ltb_lt in Hr. repeat split; auto.
    - apply orb_false_iff in Hr. destruct Hr as [H1 H2]. rewrite Z.ltb_ge in H1, H2.
      set (nw := ((n + 8 - 1) / 8)%Z).
      assert (Hdm := Z.div_mod (n + 8 - 1) 8 ltac:(lia)).
      assert (Hmb := Z.mod_pos_bound (n + 8 - 1) 8 ltac:(lia)).
      fold nw in Hdm.
      assert (Hlen : forall ws, length ws = Z.to_nat nw ->
                Utils.byte_length ws (nw * 8 - n) = n).
      { intros ws Hl. unfold Utils.byte_length, Utils.BYTES_PER_WORD. rewrite Hl.
        rewrite Z2Nat.id by lia. lia. }
      split; [lia|]. split; [|lia].
      destruct ((0 <? nw * 8 - n)%Z && (0 <? nw)%Z); apply Hlen;
        rewrite ?mask_last_length; apply pattern_words_length. }
  assert (Hiff : forall n, (46 <= n <= 1500)%Z <->
            exists ws e, Utils.create_packet n pat sv g = Utils.Ok ws e).
  { intros n. specialize (Hgen n). split.
    - destruct (Utils.create_packet n pat sv g) as [ws e|n' mn mx]; [eauto|lia].
    - intros (ws & e & E). rewrite E in Hgen. tauto. }
  split; [apply Hgen|]. split; [apply Hiff|]. split.
  - intros n Hn. apply Hiff. lia.
  - intros n Hn. specialize (Hgen n).
    destruct (Utils.create_packet n pat sv g) as [ws e|n' mn mx]; [lia|].
    destruct Hgen as (_ & -> & _). eauto.
Qed.

(** ** [AvalonSTSinkWithBackpressure]: duplicate suppression (C9) *)

(** Inside a packet the assembly buffer is non-empty and [_last_data]
    is its last word. *)
Definition bp_inv (b : BPSink.t) : Prop :=
  BPSink.in_pkt b = true ->
  BPSink.cur_pkt b <> [] /\ BPSink.last_data b = Some (last (BPSink.cur_pkt b) 0%Z).

Lemma last_snoc_Z (l : list Z) (x : Z) : last (l ++ [x]) 0%Z = x.
Proof. induction l as [|y l IH]; [reflexivity|]. rewrite <- app_comm_cons. destruct l; auto. Qed.

Lemma snoc_nonempty (l : list Z) (x : Z) : l ++ [x] <> [].
Proof. destruct l; discriminate. Qed.

Lemma bp_collect_inv (b : BPSink.t) (p : Port) : bp_inv b -> bp_inv (BPSink.collect b p).
Proof.
  destruct b as [P C ip rs ld lvr]; unfold bp_inv, BPSink.collect;
    cbn [BPSink.in_pkt BPSink.cur_pkt BPSink.last_data BPSink.last_valid_ready BPSink.packets
         BPSink.ready_state].
  intros H.
  destruct (valid p && ready p); cbn [BPSink.in_pkt BPSink.cur_pkt BPSink.last_data]; [|exact H].
  destruct (sop p); cbn [BPSink.in_pkt BPSink.cur_pkt BPSink.last_data BPSink.last_valid_ready
                         BPSink.packets BPSink.ready_state negb orb andb].
  - destruct (eop p); cbn; [discriminate|].
    intros _. split; [discriminate|reflexivity].
  - destruct ip; [|destruct (negb lvr || match ld with Some x => negb (data p =? x)%Z | None => false end);
                    cbn; rewrite ?andb_false_r; cbn; discriminate].
    destruct (H eq_refl) as [Hne Hld].
    destruct (negb lvr || match ld with Some x => negb (data p =? x)%Z | None => false end);
      cbn; destruct (eop p); cbn; try discriminate; intros _.
    + split; [apply snoc_nonempty|]. rewrite last_snoc_Z. reflexivity.
    + split; assumption.
Qed.

Lemma bp_reachable_inv (pre : list Port) : bp_inv (BPSink.collect_all BPSink.init pre).
Proof.
  assert (G : forall b, bp_inv b -> bp_inv (BPSink.collect_all b pre)).
  { induction pre as [|p pre IH]; intros b Hb; simpl; [exact Hb|].
    apply IH, bp_collect_inv, Hb. }
  apply G. unfold bp_inv; cbn; discriminate.
Qed.

(** C9, the claim as stated fails: the sink accepts a start-marked word
    [5] (now inside a packet, [_last_data = 5], previous edge accepted),
    then on the directly following edge accepts another start-marked
    word with the same value [5]; it is appended (the start resets
    [_last_valid_ready]), so the current packet is [[5]], not empty. *)
Lemma bp_sop_repeat_appended :
  let o := mkPort 5 true true false 0 0 true in
  let b1 := BPSink.collect BPSink.init o in
  let b2 := BPSink.collect b1 o in
  BPSink.in_pkt b1 = true /\ BPSink.last_valid_ready b1 = true /\
  BPSink.last_data b1 = Some 5%Z /\ BPSink.cur_pkt b2 = [5%Z].
Proof. vm_compute. repeat split. Qed.

(** C9 (as the code has it): in the pattern-driven loop of
    [AvalonSTSinkWithBackpressure.run], after any edges [pre], at an
    accepted edge ([valid] and [ready] high) that is inside a packet or
    starts one: the word [d] is appended exactly when the edge carries
    [sop], or the previous edge was not an accepted transfer
    ([_last_valid_ready] low), or [d] differs from the last recorded value
    [_last_data] (inside a packet this is the last word of the packet so
    far).  A start-marked word always starts a fresh packet with [d].
    With [eop] the resulting packet is appended to [packets]; otherwise it
    is the packet in progress. *)
Theorem bp_collect_dedup (pre : list Port) (o : Port) :
  valid o && ready o = true ->
  let b := BPSink.collect_all BPSink.init pre in
  sop o || BPSink.in_pkt b = true ->
  let b' := BPSink.collect b o in
  let appended := sop o || negb (BPSink.last_valid_ready b) ||
                  match BPSink.last_data b with
                  | Some x => negb (Z.eqb (data o) x) | None => true end in
  let cur := (if sop o then [] else BPSink.cur_pkt b) ++
             (if appended then [data o] else []) in
  (BPSink.in_pkt b = true -> BPSink.last_data b = Some (last (BPSink.cur_pkt b) 0%Z)) /\
  (if eop o
   then BPSink.packets b' = BPSink.packets b ++ [cur] /\ BPSink.cur_pkt b' = [] /\
        BPSink.in_pkt b' = false
   else BPSink.packets b' = BPSink.packets b /\ BPSink.cur_pkt b' = cur /\
        BPSink.in_pkt b' = true).
Proof.
  intros Hvr b Hin b' appended cur.
  pose proof (bp_reachable_inv pre) as Hinv. fold b in Hinv.
  split; [intros Hi; apply Hinv, Hi|].
  subst b' appended cur. clearbody b.
  destruct b as [P C ip rs ld lvr]; unfold bp_inv in Hinv;
    cbn [BPSink.in_pkt BPSink.cur_pkt BPSink.last_data BPSink.last_valid_ready BPSink.packets
         BPSink.ready_state] in *.
  unfold BPSink.collect. rewrite Hvr.
  destruct (sop o); cbn [BPSink.in_pkt BPSink.cur_pkt BPSink.last_data BPSink.last_valid_ready
                         BPSink.packets BPSink.ready_state negb orb andb].
  - destruct (eop o); cbn; repeat split.
  - cbn in Hin. subst ip. destruct (Hinv eq_refl) as [_ ->].
    destruct (negb lvr || negb (data o =? last C 0)%Z); cbn;
      destruct (eop o); cbn; rewrite ?app_nil_r; repeat split.
Qed.

(** ** Both sinks: a start inside a packet, and how packets end (C10) *)

Lemma andb3_true (a b c : bool) : a && b && c = true -> a && b = true /\ c = true.
Proof. destruct a, b, c; auto. Qed.

(** C10: for [AvalonSTSink.run] (any state) and the pattern-driven
    [AvalonSTSinkWithBackpressure.run] (any state for the first part,
    any state reached from the initial one for the second):
    (1) an accepted word with [sop] high while a packet is in progress
    drops the partial packet: nothing is appended to [packets] except,
    when the word also carries [eop], the one-word packet [[d]];
    otherwise the new packet in progress is [[d]];
    (2) every edge either leaves [packets] unchanged or appends one
    non-empty packet, and then the edge is an accepted word with [eop]
    high whose data is the packet's last word. *)
Theorem sop_restarts_and_eop_terminates :
  (forall (k : Sink.t) (o : Port),
     valid o && ready o && sop o = true -> Sink.in_pkt k = true ->
     let k' := Sink.edge k o in
     if eop o
     then Sink.packets k' = Sink.packets k ++ [[data o]] /\ Sink.in_pkt k' = false
     else Sink.packets k' = Sink.packets k /\ Sink.cur_pkt k' = [data o] /\
          Sink.in_pkt k' = true) /\
  (forall (k : Sink.t) (o : Port),
     Sink.packets (Sink.edge k o) = Sink.packets k \/
     (valid o && ready o && eop o = true /\
      exists c, Sink.packets (Sink.edge k o) = Sink.packets k ++ [c] /\ c <> [] /\
                last c 0%Z = data o)) /\
  (forall (b : BPSink.t) (o : Port),
     valid o && ready o && sop o = true -> BPSink.in_pkt b = true ->
     let b' := BPSink.collect b o in
     if eop o
     then BPSink.packets b' = BPSink.packets b ++ [[data o]] /\ BPSink.in_pkt b' = false
     else BPSink.packets b' = BPSink.packets b /\ BPSink.cur_pkt b' = [data o] /\
          BPSink.in_pkt b' = true) /\
  (forall (pre : list Port) (o : Port),
     let b := BPSink.collect_all BPSink.init pre in
     BPSink.packets (BPSink.collect b o) = BPSink.packets b \/
     (valid o && ready o && eop o = true /\
      exists c, BPSink.packets (BPSink.collect b o) = BPSink.packets b ++ [c] /\ c <> [] /\
                last c 0%Z = data o)).
Proof.
  split; [|split; [|split]].
  - intros [P C ip M] o H Hi. apply andb3_true in H as [Hvr Hs].
    cbn in Hi; subst ip. unfold Sink.edge. rewrite Hvr, Hs.
    destruct (eop o); cbn; repeat split.
  - intros [P C ip M] o. unfold Sink.edge.
    destruct (valid o && ready o) eqn:Hvr; [|left; reflexivity].
    destruct (sop o), ip, (eop o) eqn:He; cbn; try (left; reflexivity);
      right; (split; [reflexivity|]); eexists; (split; [reflexivity|]);
      (split; [first [apply snoc_nonempty | discriminate]
              |first [apply last_snoc_Z | reflexivity]]).
  - intros [P C ip rs ld lvr] o H Hi. apply andb3_true in H as [Hvr Hs].
    cbn in Hi; subst ip. unfold BPSink.collect. rewrite Hvr, Hs.
    destruct (eop o); cbn; repeat split.
  - intros pre o b.
    pose proof (bp_reachable_inv pre) as Hinv. fold b in Hinv. clearbody b.
    destruct b as [P C ip rs ld lvr]; unfold bp_inv in Hinv;
      cbn [BPSink.in_pkt BPSink.cur_pkt BPSink.last_data BPSink.last_valid_ready BPSink.packets
           BPSink.ready_state] in *.
    unfold BPSink.collect.
    destruct (valid o && ready o) eqn:Hvr; [|left; reflexivity].
    destruct (sop o).
    + destruct (eop o); cbn; [|left; reflexivity].
      right. split; [reflexivity|]. exists [data o]. repeat split. discriminate.
    + destruct ip; cbn [BPSink.in_pkt BPSink.cur_pkt BPSink.last_data BPSink.last_valid_ready
                         BPSink.packets BPSink.ready_state andb].
      * destruct (Hinv eq_refl) as [Hne ->].
        destruct (negb lvr || negb (data o =? last C 0)%Z) eqn:Hap; cbn;
          (destruct (eop o); cbn; [right; split; [reflexivity|]|left; reflexivity]).
        -- exists (C ++ [data o]). repeat split; [apply snoc_nonempty|apply last_snoc_Z].
        -- exists C. repeat split; [exact Hne|].
           apply orb_false_iff in Hap as [_ Hd]. apply negb_false_iff, Z.eqb_eq in Hd.
           symmetry; exact Hd.
      * destruct (negb lvr || match ld with Some x => negb (data o =? x)%Z | None => false end);
          cbn; destruct (eop o); left; reflexivity.
Qed.

(** ** Backpressure is not transparent for repeated words (C2) *)

(** C2, a failing input: the 64-byte [all_ones] packet of
    [create_packet(64, 'all_ones')] (eight equal words, [empty_last = 0])
    sent by [send_packet] to the pattern-driven sink with the pattern
    [[(2, True), (1, False)]] of [test_ready_pattern].  After 40 edges the
    source has returned and the sink holds one packet of only five words,
    while the always-ready [AvalonSTSink] collects the eight words: each
    word accepted on the edge right after an accepted equal word is taken
    for a held word and dropped. *)
Theorem backpressure_drops_repeated_words :
  let pat : BPSink.pattern := [(2%Z, true); (1%Z, false)] in
  let p0 := mkPort 0 false false false 0 0 false in
  match Utils.create_packet 64 "all_ones" 0 (fun _ => 0%Z) with
  | Utils.Ok ws e =>
      length ws = 8%nat /\ e = 0%Z /\
      (let '(s, _, b, _) := BPLoopback.exec pat 40 (BPLoopback.start pat ws e false p0) in
       Source.pc s = Source.Returned /\ BPSink.packets b = [firstn 5 ws] /\
       BPSink.packets b <> [ws]) /\
      (let '(s, k, _) := Loopback.exec 40 (Loopback.start ws e false p0) in
       Source.pc s = Source.Returned /\ Sink.packets k = [ws])
  | Utils.ValueError _ _ _ => False
  end.
Proof. vm_compute. repeat split. discriminate. Qed.

(** ** Instances at concrete inputs *)

(** C1 at a three-word packet with [emptyCount = 5] and the error flag
    set, five edges. *)
Lemma loopback_round_trip_witness :
  ([1; 2; 3]%Z <> [] /\ (length [1; 2; 3]%Z + 2 <= 5)%nat) /\
  (let '(s, k, _) := Loopback.exec 5
                       (Loopback.start [1; 2; 3]%Z 5 true (mkPort 0 false false false 0 0 false)) in
   Source.pc s = Source.Returned /\ Sink.packets k = [[1; 2; 3]%Z] /\
   Sink.packet_metadata k = [Sink.mkMeta 5 1]).
Proof.
  split; [split; [discriminate | simpl; lia]|].
  exact (loopback_round_trip [1; 2; 3]%Z 5 true (mkPort 0 false false false 0 0 false) 5
           ltac:(discriminate) ltac:(simpl; lia)).
Defined.

(** C7 at an end-marked word without a start on a fresh sink. *)
Lemma sink_ignores_words_outside_packet_witness :
  let o := mkPort 7 true false true 0 0 true in
  (valid o && ready o = true /\ sop o = false /\
   Sink.in_pkt (Sink.monitor Sink.init []) = false) /\
  Sink.edge (Sink.monitor Sink.init []) o = Sink.monitor Sink.init [] /\
  Sink.monitor Sink.init ([] ++ o :: []) = Sink.monitor Sink.init ([] ++ []).
Proof.
  split; [repeat split|].
  exact (sink_ignores_words_outside_packet [] [] (mkPort 7 true false true 0 0 true)
           eq_refl eq_refl eq_refl).
Defined.

(** C9 inside a packet: after the start-marked word 5 was accepted, an
    accepted word 5 without [sop] on the next edge repeats the last
    recorded value right after an accepted transfer, so it is not
    appended and the packet in progress stays [[5]]. *)
Lemma bp_collect_dedup_witness :
  let pre := [mkPort 5 true true false 0 0 true] in
  let o := mkPort 5 true false false 0 0 true in
  let b := BPSink.collect_all BPSink.init pre in
  (valid o && ready o = true /\ (sop o || BPSink.in_pkt b) = true) /\
  BPSink.in_pkt b = true /\ BPSink.last_valid_ready b = true /\
  BPSink.last_data b = Some 5%Z /\ BPSink.cur_pkt b = [5%Z] /\
  BPSink.packets (BPSink.collect b o) = [] /\
  BPSink.cur_pkt (BPSink.collect b o) = [5%Z] /\
  BPSink.in_pkt (BPSink.collect b o) = true.
Proof.
  intros pre o b.
  assert (Hvr : valid o && ready o = true) by reflexivity.
  assert (Hin : sop o || BPSink.in_pkt b = true) by reflexivity.
  destruct (bp_collect_dedup pre o Hvr Hin) as [Hl Hc].
  cbn [eop o] in Hc. destruct Hc as (Hp & Hcur & Hi).
  change (BPSink.collect_all BPSink.init pre) with b in Hp, Hcur, Hi.
  split; [split; [exact Hvr | exact Hin]|].
  split; [reflexivity|]. split; [reflexivity|]. split; [reflexivity|].
  split; [reflexivity|].
  split; [rewrite Hp; reflexivity|].
  split; [rewrite Hcur; vm_compute; reflexivity | exact Hi].
Defined.

(** ** The sinks' bookkeeping *)

Lemma sink_edge_cases (k : Sink.t) (p : Port) :
  (Sink.packets (Sink.edge k p) = Sink.packets k /\
   Sink.packet_metadata (Sink.edge k p) = Sink.packet_metadata k) \/
  (valid p && ready p && eop p = true /\
   exists c, Sink.packets (Sink.edge k p) = Sink.packets k ++ [c] /\
   Sink.packet_metadata (Sink.edge k p) =
     Sink.packet_metadata k ++ [Sink.mkMeta (empty p) (error p)]).
Proof.
  destruct k as [P C ip M]. unfold Sink.edge.
  destruct (valid p && ready p) eqn:Hvr; [|left; split; reflexivity].
  destruct (sop p), ip, (eop p) eqn:He; cbn; try (left; split; reflexivity);
    right; (split; [reflexivity|]); eexists; split; reflexivity.
Qed.

Lemma last_snoc_any {A : Type} (l : list A) (x d : A) : last (l ++ [x]) d = x.
Proof. induction l as [|y l IH]; [reflexivity|]. rewrite <- app_comm_cons. destruct l; auto. Qed.

Lemma get_last_snoc (M : list Sink.meta) (m : Sink.meta) :
  Sink.get_last_packet_metadata (Sink.mk [] [] false (M ++ [m])) = Some m.
Proof.
  unfold Sink.get_last_packet_metadata; cbn [Sink.packet_metadata].
  destruct M as [|m0 M]; [reflexivity|]. cbn [app]. f_equal. apply last_snoc_any.
Qed.

(** [AvalonSTSink]: after any monitored edges from a fresh sink,
    [_packet_metadata] has one entry per collected packet, so
    [get_last_packet_metadata()] is [None] exactly when
    [get_packet_count()] is 0; and whenever an edge adds a packet, the
    metadata [get_last_packet_metadata()] then returns is the [empty] and
    [error] sampled at that edge (the packet's end-marked word). *)
Theorem sink_metadata_tracks_packets (pre : list Port) (o : Port) :
  let k := Sink.monitor Sink.init pre in
  length (Sink.packet_metadata k) = Sink.get_packet_count k /\
  (Sink.get_last_packet_metadata k = None <-> Sink.get_packet_count k = 0%nat) /\
  (Sink.get_packet_count (Sink.edge k o) <> Sink.get_packet_count k ->
   Sink.get_last_packet_metadata (Sink.edge k o) = Some (Sink.mkMeta (empty o) (error o))).
Proof.
  intros k.
  assert (Hlen : forall pre k0, length (Sink.packet_metadata k0) = length (Sink.packets k0) ->
             length (Sink.packet_metadata (Sink.monitor k0 pre)) =
             length (Sink.packets (Sink.monitor k0 pre))).
  { induction pre0 as [|p pre0 IH]; intros k0 H; [exact H|]. cbn [Sink.monitor]. apply IH.
    destruct (sink_edge_cases k0 p) as [[-> ->]|(_ & c & -> & ->)]; [exact H|].
    rewrite !length_app, H. reflexivity. }
  assert (H1 : length (Sink.packet_metadata k) = Sink.get_packet_count k)
    by (apply Hlen; reflexivity).
  split; [exact H1|]. split.
  - unfold Sink.get_last_packet_metadata. rewrite <- H1.
    destruct (Sink.packet_metadata k); cbn; split; congruence.
  - unfold Sink.get_packet_count.
    destruct (sink_edge_cases k o) as [[-> _]|(_ & c & _ & HM)]; [congruence|].
    intros _. unfold Sink.get_last_packet_metadata. rewrite HM.
    pose proof (get_last_snoc (Sink.packet_metadata k) (Sink.mkMeta (empty o) (error o))) as G.
    exact G.
Qed.

Lemma bp_collect_packets_grow (b : BPSink.t) (p : Port) :
  exists l, BPSink.packets (BPSink.collect b p) = BPSink.packets b ++ l.
Proof.
  destruct b as [P C ip rs ld lvr]. unfold BPSink.collect.
  repeat match goal with |- context [if ?c then _ else _] => destruct c end; cbn;
    first [exists []; rewrite app_nil_r; reflexivity | eexists; reflexivity].
Qed.

(** Neither sink ever removes or rewrites a collected packet:
    [AvalonSTSink.run] (with its [_packet_metadata]) and the
    pattern-driven [AvalonSTSinkWithBackpressure.run] only append to
    [packets], over any edges from any state. *)
Theorem sinks_only_append (k : Sink.t) (b : BPSink.t) (ps : list Port) :
  (exists l m, Sink.packets (Sink.monitor k ps) = Sink.packets k ++ l /\
               Sink.packet_metadata (Sink.monitor k ps) = Sink.packet_metadata k ++ m) /\
  (exists l, BPSink.packets (BPSink.collect_all b ps) = BPSink.packets b ++ l).
Proof.
  split.
  - revert k; induction ps as [|p ps IH]; intros k; cbn [Sink.monitor].
    + exists [], []. rewrite !app_nil_r. split; reflexivity.
    + destruct (IH (Sink.edge k p)) as (l & m & -> & ->).
      destruct (sink_edge_cases k p) as [[-> ->]|(_ & c & -> & ->)].
      * exists l, m. split; reflexivity.
      * exists ([c] ++ l), ([Sink.mkMeta (empty p) (error p)] ++ m).
        rewrite !app_assoc. split; reflexivity.
  - revert b; induction ps as [|p ps IH]; intros b; cbn [BPSink.collect_all].
    + exists []. rewrite app_nil_r. reflexivity.
    + destruct (IH (BPSink.collect b p)) as (l & ->).
      destruct (bp_collect_packets_grow b p) as (l0 & ->).
      exists (l0 ++ l). rewrite app_assoc. reflexivity.
Qed.

(** ** [clear()] on the sinks *)

Lemma sink_idle_no_start (p : Port) :
  valid p && ready p && sop p = false -> Sink.edge Sink.init p = Sink.init.
Proof.
  intros H. unfold Sink.edge.
  destruct (valid p && ready p) eqn:Hvr; [|reflexivity].
  cbn in H. rewrite H. cbn. destruct (eop p); reflexivity.
Qed.

Lemma bp_idle_no_start (b : BPSink.t) (p : Port) :
  BPSink.packets b = [] -> BPSink.cur_pkt b = [] -> BPSink.in_pkt b = false ->
  valid p && ready p && sop p = false ->
  BPSink.packets (BPSink.collect b p) = [] /\ BPSink.cur_pkt (BPSink.collect b p) = [] /\
  BPSink.in_pkt (BPSink.collect b p) = false.
Proof.
  destruct b as [P C ip rs ld lvr]; cbn [BPSink.packets BPSink.cur_pkt BPSink.in_pkt].
  intros -> -> -> H. unfold BPSink.collect.
  destruct (valid p && ready p) eqn:Hvr; [|repeat split].
  cbn in H. rewrite H. cbn.
  destruct (negb lvr || match ld with Some x => negb (data p =? x)%Z | None => false end);
    cbn; destruct (eop p); repeat split.
Qed.

(** [clear()] on either sink, in any state and also in the middle of a
    packet: as long as no accepted word carries [sop], nothing is
    collected afterwards; the rest of an interrupted packet is dropped.
    [AvalonSTSink] stays exactly in its initial state; the
    pattern-driven sink keeps [packets] and its buffer empty, outside a
    packet. *)
Theorem sinks_clear_forgets_packet (k : Sink.t) (b : BPSink.t) (ps : list Port) :
  Forall (fun p => valid p && ready p && sop p = false) ps ->
  Sink.monitor (Sink.clear k) ps = Sink.init /\
  BPSink.packets (BPSink.collect_all (BPSink.clear b) ps) = [] /\
  BPSink.cur_pkt (BPSink.collect_all (BPSink.clear b) ps) = [] /\
  BPSink.in_pkt (BPSink.collect_all (BPSink.clear b) ps) = false.
Proof.
  intros Hall. split.
  - unfold Sink.clear. change (Sink.mk [] [] false []) with Sink.init.
    induction Hall as [|p ps Hp Hall IH]; [reflexivity|].
    cbn [Sink.monitor]. rewrite sink_idle_no_start by exact Hp. exact IH.
  - assert (G : forall b0, BPSink.packets b0 = [] -> BPSink.cur_pkt b0 = [] ->
                BPSink.in_pkt b0 = false ->
                BPSink.packets (BPSink.collect_all b0 ps) = [] /\
                BPSink.cur_pkt (BPSink.collect_all b0 ps) = [] /\
                BPSink.in_pkt (BPSink.collect_all b0 ps) = false).
    { induction Hall as [|p ps Hp Hall IH]; intros b0 H1 H2 H3; [repeat split; assumption|].
      cbn [BPSink.collect_all].
      destruct (bp_idle_no_start b0 p H1 H2 H3 Hp) as (G1 & G2 & G3).
      apply IH; assumption. }
    apply G; reflexivity.
Qed.

(** ** [AvalonSTSinkWithBackpressure.run(None)] *)

(** [AvalonSTSinkWithBackpressure.run()] without a pattern assembles
    packets exactly as [AvalonSTSink.run]: from fresh sinks, over any
    sampled edges, both hold the same collected packets, the same
    buffer and the same in-packet flag. *)
Theorem plain_backpressure_sink_matches_sink (ps : list Port) :
  let b := BPSink.plain_all (fst (BPSink.plain_start BPSink.init)) ps in
  let k := Sink.monitor Sink.init ps in
  BPSink.packets b = Sink.packets k /\ BPSink.cur_pkt b = Sink.cur_pkt k /\
  BPSink.in_pkt b = Sink.in_pkt k.
Proof.
  assert (G : forall ps b k, BPSink.packets b = Sink.packets k -> BPSink.cur_pkt b = Sink.cur_pkt k ->
            BPSink.in_pkt b = Sink.in_pkt k ->
            let b' := BPSink.plain_all b ps in let k' := Sink.monitor k ps in
            BPSink.packets b' = Sink.packets k' /\ BPSink.cur_pkt b' = Sink.cur_pkt k' /\
            BPSink.in_pkt b' = Sink.in_pkt k').
  { induction ps0 as [|p ps0 IH]; intros b0 k0 H1 H2 H3; [repeat split; assumption|].
    cbn [BPSink.plain_all Sink.monitor]. apply IH;
    destruct b0 as [P C ip rs ld lvr], k0 as [P' C' ip' M'];
    cbn [BPSink.packets BPSink.cur_pkt BPSink.in_pkt Sink.packets Sink.cur_pkt Sink.in_pkt] in *;
    subst; unfold BPSink.plain_edge, Sink.edge;
    destruct (valid p && ready p), (sop p), ip', (eop p); reflexivity. }
  apply G; reflexivity.
Qed.

(** ** [wait_for_packet] *)

Lemma wait_loop_spec (count : nat -> nat) (mp : Z) (k : nat) :
  forall s t,
  (Utils.wait_loop count mp s k = (true, t) <->
   (s <= t < s + k)%nat /\ (mp <= Z.of_nat (count t))%Z /\
   forall u, (s <= u < t)%nat -> (Z.of_nat (count u) < mp)%Z) /\
  (fst (Utils.wait_loop count mp s k) = false ->
   Utils.wait_loop count mp s k = (false, s + k)%nat /\
   forall u, (s <= u < s + k)%nat -> (Z.of_nat (count u) < mp)%Z).
Proof.
  induction k as [|k IH]; intros s t; cbn [Utils.wait_loop].
  - split; [split; [discriminate|lia]|]. intros _. rewrite Nat.add_0_r. split; [reflexivity|lia].
  - destruct (mp <=? Z.of_nat (count s))%Z eqn:Hc.
    + apply Z.leb_le in Hc. split; [|cbn; discriminate]. split.
      * intros H; inversion H; subst. split; [lia|]. split; [exact Hc|]. intros; lia.
      * intros (Ht & Hm & Hu). destruct (Nat.eq_dec s t) as [->|Hne]; [reflexivity|].
        specialize (Hu s ltac:(lia)). lia.
    + apply Z.leb_gt in Hc. destruct (IH (S s) t) as [H1 H2]. split.
      * rewrite H1. split.
        -- intros (Ht & Hm & Hu). split; [lia|]. split; [exact Hm|].
           intros u Hu'. destruct (Nat.eq_dec u s) as [->|]; [exact Hc|]. apply Hu. lia.
        -- intros (Ht & Hm & Hu). assert (s <> t) by (intros ->; lia).
           split; [lia|]. split; [exact Hm|]. intros u Hu'. apply Hu. lia.
      * intros Hf. destruct (H2 Hf) as [-> Hu]. split; [f_equal; lia|].
        intros u Hu'. destruct (Nat.eq_dec u s) as [->|]; [exact Hc|]. apply Hu. lia.
Qed.

(** [wait_for_packet(sink, timeout_cycles, min_packets)], with
    [count t] the sink's [get_packet_count()] read after [t] edges and
    [T] the number of iterations ([timeout_cycles], 1000 when [None], none
    when it is 0 or negative): it returns [True] after [t] edges exactly
    when [t] is the first poll below [T] at which at least [min_packets]
    packets are there, and otherwise returns [False] after waiting all
    [T] edges, no poll having seen enough packets.  A timeout of 0 (or
    less) returns [False] at once even when the packets are already
    there. *)
Theorem wait_for_packet_first_poll (count : nat -> nat) (timeout : option Z) (mp : Z) (t : nat) :
  let T := Z.to_nat (match timeout with None => 1000%Z | Some c => c end) in
  (Utils.wait_for_packet count timeout mp = (true, t) <->
   (t < T)%nat /\ (mp <= Z.of_nat (count t))%Z /\
   forall u, (u < t)%nat -> (Z.of_nat (count u) < mp)%Z) /\
  (fst (Utils.wait_for_packet count timeout mp) = false ->
   Utils.wait_for_packet count timeout mp = (false, T) /\
   forall u, (u < T)%nat -> (Z.of_nat (count u) < mp)%Z) /\
  ((match timeout with None => 1000%Z | Some c => c end <= 0)%Z ->
   Utils.wait_for_packet count timeout mp = (false, 0%nat)).
Proof.
  intros T. unfold Utils.wait_for_packet, Utils.PACKET_TIMEOUT_CYCLES.
  fold T. destruct (wait_loop_spec count mp T 0 t) as [H1 H2].
  split; [|split].
  - rewrite H1. split.
    + intros (Ht & Hm & Hu). split; [lia|]. split; [exact Hm|]. intros u Hu'. apply Hu. lia.
    + intros (Ht & Hm & Hu). split; [lia|]. split; [exact Hm|]. intros u Hu'. apply Hu. lia.
  - intros Hf. destruct (H2 Hf) as [-> Hu]. split; [reflexivity|]. intros u Hu'. apply Hu. lia.
  - intros Hle. assert (HT : T = 0%nat) by (unfold T; destruct timeout; lia).
    rewrite HT. reflexivity.
Qed.

(** ** [create_packet]: word count and masking *)

Lemma create_packet_ok (nb : Z) (pat : string) (sv : Z) (g : nat -> Z) (ws : list Z) (e : Z) :
  Utils.create_packet nb pat sv g = Utils.Ok ws e ->
  (46 <= nb <= 1500)%Z /\ e = ((nb + 7) / 8 * 8 - nb)%Z /\
  ws = (if (0 <? (nb + 7) / 8 * 8 - nb)%Z && (0 <? (nb + 7) / 8)%Z
        then Utils.mask_last (Utils.pattern_words pat sv g (Z.to_nat ((nb + 7) / 8)))
               (Z.shiftl 1 ((8 - ((nb + 7) / 8 * 8 - nb)) * 8) - 1)
        else Utils.pattern_words pat sv g (Z.to_nat ((nb + 7) / 8))).
Proof.
  unfold Utils.create_packet, Utils.MIN_PACKET_BYTES, Utils.MAX_PACKET_BYTES, Utils.BYTES_PER_WORD.
  destruct ((nb <? 46)%Z || (1500 <? nb)%Z) eqn:Hr; [discriminate|].
  apply orb_false_iff in Hr as [H1 H2]. rewrite Z.ltb_ge in H1, H2.
  intros H; inversion H; subst. replace (nb + 8 - 1)%Z with (nb + 7)%Z by lia.
  split; [lia|]. split; reflexivity.
Qed.

(** [create_packet] returns [ceil(num_bytes / 8)] words: 6 for 46 bytes
    up to 188 for 1500 bytes, always one more than config.py's
    [MIN_PACKET_WORDS = 46 // 8 = 5] and [MAX_PACKET_WORDS = 1500 // 8 =
    187] at the two ends; the 1500-byte packet's [empty_last] is
    [MAX_PACKET_LAST_EMPTY = 4]. *)
Theorem create_packet_word_count (pat : string) (sv : Z) (g : nat -> Z) :
  (forall nb ws e, Utils.create_packet nb pat sv g = Utils.Ok ws e ->
     Z.of_nat (length ws) = ((nb + 7) / 8)%Z /\
     (Utils.MIN_PACKET_WORDS + 1 <= Z.of_nat (length ws) <= Utils.MAX_PACKET_WORDS + 1)%Z) /\
  Utils.MIN_PACKET_WORDS = 5%Z /\ Utils.MAX_PACKET_WORDS = 187%Z /\
  (forall ws e, Utils.create_packet 46 pat sv g = Utils.Ok ws e -> length ws = 6%nat) /\
  (forall ws e, Utils.create_packet 1500 pat sv g = Utils.Ok ws e ->
     length ws = 188%nat /\ e = Utils.MAX_PACKET_LAST_EMPTY).
Proof.
  assert (Hlen : forall nb ws e, Utils.create_packet nb pat sv g = Utils.Ok ws e ->
            Z.of_nat (length ws) = ((nb + 7) / 8)%Z /\ (46 <= nb <= 1500)%Z /\
            e = ((nb + 7) / 8 * 8 - nb)%Z).
  { intros nb ws e H. destruct (create_packet_ok nb pat sv g ws e H) as (Hr & He & Hw).
    split; [|split; assumption]. subst ws.
    destruct (_ && _); rewrite ?mask_last_length, pattern_words_length;
      apply Z2Nat.id; apply Z.div_pos; lia. }
  split; [|split; [reflexivity|split; [reflexivity|split]]].
  - intros nb ws e H. destruct (Hlen nb ws e H) as (H1 & H2 & _). split; [exact H1|].
    rewrite H1. unfold Utils.MIN_PACKET_WORDS, Utils.MAX_PACKET_WORDS, Utils.MIN_PACKET_BYTES,
      Utils.MAX_PACKET_BYTES, Utils.BYTES_PER_WORD.
    pose proof (Z.div_le_mono 53 (nb + 7) 8 ltac:(lia) ltac:(lia)) as A.
    pose proof (Z.div_le_mono (nb + 7) 1507 8 ltac:(lia) ltac:(lia)) as B.
    change (53 / 8)%Z with 6%Z in A. change (1507 / 8)%Z with 188%Z in B.
    change (46 / 8)%Z with 5%Z. change (1500 / 8)%Z with 187%Z. lia.
  - intros ws e H. destruct (Hlen 46%Z ws e H) as (H1 & _). cbn in H1. lia.
  - intros ws e H. destruct (Hlen 1500%Z ws e H) as (H1 & _ & H3). cbn in H1, H3.
    split; [lia|]. rewrite H3. reflexivity.
Qed.

Lemma mask_last_spec (ws : list Z) (mask : Z) :
  ws <> [] ->
  (forall i, (S i < length ws)%nat -> nth i (Utils.mask_last ws mask) 0%Z = nth i ws 0%Z) /\
  last (Utils.mask_last ws mask) 0%Z = Z.land (last ws 0%Z) mask.
Proof.
  induction ws as [|w ws IH]; intros Hne; [congruence|].
  destruct ws as [|w' ws].
  - split; [cbn; intros; lia|reflexivity].
  - destruct (IH ltac:(discriminate)) as [H1 H2].
    change (Utils.mask_last (w :: w' :: ws) mask) with (w :: Utils.mask_last (w' :: ws) mask).
    split.
    + intros [|i] Hi; [reflexivity|]. cbn [nth]. apply H1. cbn in Hi |- *. lia.
    + assert (Hm : Utils.mask_last (w' :: ws) mask <> []).
      { intros E. apply (f_equal (@length Z)) in E. rewrite mask_last_length in E. discriminate. }
      destruct (Utils.mask_last (w' :: ws) mask) as [|x xs] eqn:E; [congruence|].
      change (last (w :: x :: xs) 0%Z = Z.land (last (w :: w' :: ws) 0%Z) mask).
      rewrite <- E in *. cbn [last] in *. rewrite E. rewrite E in H2. exact H2.
Qed.

(** [create_packet] returns the pattern's words unchanged except the
    last: when [empty_last > 0] that word keeps only its low
    [8 * (8 - empty_last)] bits (the valid bytes), so it lies in
    [[0, 2^(8*(8-empty_last)))]; with [empty_last = 0] it is the
    pattern's word. *)
Theorem create_packet_masks_last_word (nb : Z) (pat : string) (sv : Z) (g : nat -> Z)
  (ws : list Z) (e : Z) :
  Utils.create_packet nb pat sv g = Utils.Ok ws e ->
  let raw := Utils.pattern_words pat sv g (length ws) in
  (forall i, (S i < length ws)%nat -> nth i ws 0%Z = nth i raw 0%Z) /\
  last ws 0%Z = (if (0 <? e)%Z then Z.land (last raw 0%Z) (2 ^ (8 * (8 - e)) - 1)
                 else last raw 0%Z) /\
  ((0 < e)%Z -> (0 <= last ws 0%Z < 2 ^ (8 * (8 - e)))%Z).
Proof.
  intros H raw. destruct (create_packet_ok nb pat sv g ws e H) as (Hr & He & Hw).
  assert (Hnw : (6 <= (nb + 7) / 8)%Z).
  { pose proof (Z.div_le_mono 53 (nb + 7) 8 ltac:(lia) ltac:(lia)) as A.
    change (53 / 8)%Z with 6%Z in A. exact A. }
  assert (Hraw : raw = Utils.pattern_words pat sv g (Z.to_nat ((nb + 7) / 8))).
  { unfold raw. f_equal. rewrite Hw.
    destruct (_ && _); rewrite ?mask_last_length; apply pattern_words_length. }
  clearbody raw. rewrite <- He in Hw. rewrite <- Hraw in Hw.
  assert (Hne : raw <> []).
  { intros E. apply (f_equal (@length Z)) in E. rewrite Hraw, pattern_words_length in E.
    cbn in E. lia. }
  assert (He8 : (0 <= e < 8)%Z).
  { pose proof (Z.div_mod (nb + 7) 8 ltac:(lia)). pose proof (Z.mod_pos_bound (nb + 7) 8 ltac:(lia)).
    lia. }
  replace (0 <? (nb + 7) / 8)%Z with true in Hw by (symmetry; apply Z.ltb_lt; lia).
  rewrite andb_true_r in Hw.
  rewrite Z.shiftl_1_l in Hw. replace ((8 - e) * 8)%Z with (8 * (8 - e))%Z in Hw by lia.
  destruct (0 <? e)%Z eqn:Hpos.
  - destruct (mask_last_spec raw (2 ^ (8 * (8 - e)) - 1) Hne) as [M1 M2].
    subst ws. split; [|split].
    + intros i Hi. apply M1. rewrite mask_last_length in Hi. exact Hi.
    + exact M2.
    + intros _. rewrite M2.
      replace (2 ^ (8 * (8 - e)) - 1)%Z with (Z.ones (8 * (8 - e))) by (rewrite Z.ones_equiv; lia).
      rewrite Z.land_ones by lia.
      apply Z.mod_pos_bound. apply Z.pow_pos_nonneg; lia.
  - subst ws. split; [intros; reflexivity|]. split; [reflexivity|].
    apply Z.ltb_ge in Hpos. lia.
Qed.

Lemma mask_last_Forall (P : Z -> Prop) (mask : Z) (ws : list Z) :
  (forall w, P w -> P (Z.land w mask)) -> Forall P ws -> Forall P (Utils.mask_last ws mask).
Proof.
  intros HP. induction ws as [|w ws IH]; intros H; [constructor|].
  inversion H as [|? ? Hw Hws]; subst.
  destruct ws as [|w' ws].
  - constructor; [apply HP, Hw|constructor].
  - change (Utils.mask_last (w :: w' :: ws) mask) with (w :: Utils.mask_last (w' :: ws) mask).
    constructor; [exact Hw|]. apply IH, Hws.
Qed.

Lemma pattern_words_fit (pat : string) (sv : Z) (g : nat -> Z) (nw : nat) :
  (nw <= 188)%nat ->
  (forall k, (0 <= g k < 2 ^ 64)%Z) ->
  (pat = "incrementing"%string -> (0 <= sv /\ sv + 188 <= 2 ^ 64)%Z) ->
  Forall (fun w => (0 <= w < 2 ^ 64)%Z) (Utils.pattern_words pat sv g nw).
Proof.
  intros Hnw Hg Hsv. apply Forall_forall. unfold Utils.pattern_words.
  destruct (String.eqb_spec pat "incrementing") as [Hp|_].
  { specialize (Hsv Hp). intros w Hw. apply in_map_iff in Hw as (i & <- & Hi).
    apply in_seq in Hi. lia. }
  destruct (String.eqb pat "all_ones").
  { intros w Hw. apply repeat_spec in Hw. subst. lia. }
  destruct (String.eqb pat "all_zeros").
  { intros w Hw. apply repeat_spec in Hw. subst. lia. }
  destruct (String.eqb pat "alternating").
  { intros w Hw. apply in_map_iff in Hw as (i & <- & _). destruct (Nat.even i); lia. }
  destruct (String.eqb pat "random").
  { intros w Hw. apply in_map_iff in Hw as (i & <- & _). apply Hg. }
  intros w Hw. apply in_map_iff in Hw as (i & <- & Hi). apply in_seq in Hi. lia.
Qed.

(** Every word [create_packet] returns fits the 64-bit data bus
    ([0 <= w < 2^64]) when [random.getrandbits(64)] does and, for the
    [incrementing] pattern, when [start_value] is non-negative and at
    most [2^64 - 188]; the [all_ones], [all_zeros], [alternating] and
    fallback patterns fit unconditionally, and masking the last word
    never takes it out of range. *)
Theorem create_packet_words_fit_64 (nb : Z) (pat : string) (sv : Z) (g : nat -> Z)
  (ws : list Z) (e : Z) :
  Utils.create_packet nb pat sv g = Utils.Ok ws e ->
  (forall k, (0 <= g k < 2 ^ 64)%Z) ->
  (pat = "incrementing"%string -> (0 <= sv /\ sv + 188 <= 2 ^ 64)%Z) ->
  Forall (fun w => (0 <= w < 2 ^ 64)%Z) ws.
Proof.
  intros H Hg Hsv. destruct (create_packet_ok nb pat sv g ws e H) as (Hr & He & Hw).
  assert (Hq : ((nb + 7) / 8 <= 188)%Z).
  { pose proof (Z.div_le_mono (nb + 7) 1507 8 ltac:(lia) ltac:(lia)) as A.
    change (1507 / 8)%Z with 188%Z in A. exact A. }
  assert (Hq0 : (0 <= (nb + 7) / 8)%Z) by (apply Z.div_pos; lia).
  assert (Hmd : (8 * ((nb + 7) / 8) <= nb + 7)%Z) by (apply Z.mul_div_le; lia).
  pose proof (pattern_words_fit pat sv g (Z.to_nat ((nb + 7) / 8)) ltac:(lia) Hg Hsv) as Hf.
  rewrite Hw. destruct (_ && _); [|exact Hf].
  apply mask_last_Forall; [|exact Hf].
  intros w [Hw0 Hw1].
  set (k := ((8 - ((nb + 7) / 8 * 8 - nb)) * 8)%Z).
  assert (Hk : (0 <= k)%Z) by (unfold k; lia).
  replace (Z.shiftl 1 k - 1)%Z with (Z.ones k)
    by (rewrite Z.ones_equiv, Z.shiftl_1_l; lia).
  rewrite Z.land_ones by exact Hk.
  pose proof (Z.mod_pos_bound w (2 ^ k) ltac:(apply Z.pow_pos_nonneg; lia)).
  pose proof (Z.mod_le w (2 ^ k) Hw0 ltac:(apply Z.pow_pos_nonneg; lia)). lia.
Qed.

(** ** The drivers: an empty queued packet, [set_idle], duration *)

Lemma qloopback_crashed_stable (m : nat) (q : QSource.t) (k : Sink.t) (p : Port) :
  QSource.pc q = QSource.Crashed -> valid p = false -> QLoopback.run m q k p = (q, k, p).
Proof.
  intros Hc Hv. induction m as [|m IH]; [reflexivity|].
  cbn [QLoopback.run]. unfold QLoopback.edge at 1, QSource.resume at 1. rewrite Hc.
  rewrite sink_edge_not_valid by exact Hv. exact IH.
Qed.

(** [AvalonSTQueuedSource] with an always-ready sink, when the first
    queued tuple has no words: at the first edge [_send_task] pops it and
    [words[0]] raises [IndexError], ending the task.  From then on,
    whatever is queued behind it, nothing is ever sent: the port stays
    idle, the sink collects nothing and [get_queue_size()] stays at the
    number of queued tuples. *)
Theorem qsource_empty_packet_stalls (e : Z) (er : bool) (rest : list QSource.entry)
  (p0 : Port) (m : nat) :
  let '(q, k, p) := QLoopback.exec (S m) (QLoopback.start (([], e, er) :: rest) p0) in
  QSource.pc q = QSource.Crashed /\ QSource.get_queue_size q = S (length rest) /\
  Sink.packets k = [] /\ is_idle p = true.
Proof.
  unfold QLoopback.exec, QLoopback.start, QSource.enqueue_all.
  cbn [map QSource.drive].
  unfold QSource.queue_packet at 1. cbn [QSource.init QSource.running QSource.packet_queue app
    QSource.current_packet QSource.current_word_idx QSource.started QSource.pc].
  rewrite (drive_enqueue_running rest [([], e, er)]). cbn [app Sink.run_start].
  cbn [QLoopback.run]. unfold QLoopback.edge at 1.
  rewrite sink_edge_not_valid by reflexivity.
  cbn - [QLoopback.run].
  rewrite qloopback_crashed_stable by reflexivity.
  split; [reflexivity|]. split; [unfold QSource.get_queue_size; cbn; lia|].
  split; reflexivity.
Qed.

(** [set_idle()] on either driver while a word (not the last) is
    presented does not stop the send.  The port goes idle, so the peer
    sees [valid] low.  At the next edge where [ready] is high the driver
    still treats the idled word as transferred: it moves past it and
    presents the next word, so the idled word is never delivered. *)
Theorem set_idle_does_not_stop_sending :
  (forall (s : Source.t) (p : Port) (i : nat),
     Source.pc s = Source.AwaitReady i -> (S i < length (Source.words s))%nat ->
     let p1 := set_ready true (Source.set_idle_op p) in
     valid p1 = false /\
     Source.resume s p1 =
       (Source.goto s (Source.AwaitReady (S i)),
        drive_word (Source.words s) (Source.empty_last s) (Source.err s) (S i))) /\
  (forall (q : QSource.t) (p : Port) (ws : list Z) (e : Z) (er : bool),
     QSource.pc q = QSource.AwaitReady (length ws) ->
     QSource.current_packet q = Some (ws, e, er) ->
     (S (QSource.current_word_idx q) < length ws)%nat ->
     let '(q1, p1) := QSource.set_idle_op q p in
     let p2 := set_ready true p1 in
     q1 = q /\ valid p2 = false /\
     QSource.current_word_idx (fst (QSource.resume q1 p2)) = S (QSource.current_word_idx q) /\
     QSource.pc (fst (QSource.resume q1 p2)) = QSource.AwaitReady (length ws) /\
     snd (QSource.resume q1 p2) p2 = drive_word ws e er (S (QSource.current_word_idx q)) p2).
Proof.
  split.
  - intros [sw se serr spc] p i Hpc Hlt p1. cbn [Source.pc Source.words] in *. subst spc.
    split; [reflexivity|].
    unfold Source.resume. cbn [Source.pc Source.words Source.empty_last Source.err].
    replace (ready p1) with true by reflexivity.
    apply Nat.ltb_lt in Hlt. rewrite Hlt. reflexivity.
  - intros [qu cur idx run qpc st] p ws e er Hpc Hc Hlt.
    cbn [QSource.pc QSource.current_packet QSource.current_word_idx] in *. subst qpc cur.
    unfold QSource.set_idle_op. cbn zeta.
    split; [reflexivity|]. split; [reflexivity|].
    unfold QSource.resume. cbn [QSource.pc QSource.current_word_idx].
    replace (ready (set_ready true (set_idle p))) with true by reflexivity.
    assert (Hle : Nat.leb (length ws) (S idx) = false) by (apply Nat.leb_gt; exact Hlt).
    rewrite Hle. unfold QSource.from_top, QSource.present.
    cbn [QSource.current_packet QSource.current_word_idx].
    apply Nat.ltb_lt in Hlt. rewrite Hlt. cbn. repeat split.
Qed.


(** ** The [ready] schedule of a backpressure pattern *)

Lemma pattern_update_shape (pat : BPSink.pattern) (ps : BPSink.pstate) :
  exists ps' o, forall b,
  BPSink.pattern_update pat ps b =
  (ps', match o with None => b | Some st => BPSink.with_ready_state b st end,
   match o with None => no_writes | Some st => set_ready st end).
Proof.
  destruct ps as [idx c]. unfold BPSink.pattern_update. cbn [BPSink.pattern_idx BPSink.cycles_in_pattern].
  destruct (Nat.ltb idx (length pat)); [|eexists; exists None; intros; reflexivity].
  destruct (nth idx pat (0%Z, false)) as [cy st].
  destruct (Z.leb cy (c + 1)); [|eexists; exists None; intros; reflexivity].
  destruct (Nat.ltb (S idx) (length pat)).
  - destruct (nth (S idx) pat (0%Z, false)) as [cy' st'].
    eexists; exists (Some st'); intros; reflexivity.
  - destruct pat as [|[cy0 st0] pat']; [eexists; exists None; intros; reflexivity|].
    eexists; exists (Some st0); intros; reflexivity.
Qed.

Lemma source_keeps_ready (s : Source.t) (p : Port) :
  ready (snd (Source.resume s p) p) = ready p.
Proof.
  destruct s as [sw se serr spc]. unfold Source.resume, Source.goto.
  cbn [Source.pc Source.words Source.empty_last Source.err].
  destruct spc as [|i| |]; [destruct sw| |reflexivity|reflexivity]; try reflexivity.
  destruct (ready p) eqn:Hr; [|exact Hr]. destruct (Nat.ltb (S i) (length sw)); exact Hr.
Qed.

Lemma ready_seen_levels (pat : BPSink.pattern) (m : nat) :
  forall s ps b p, BPLoopback.ready_seen_run pat m s ps b p = pattern_levels pat m ps (ready p).
Proof.
  induction m as [|m IH]; intros s ps b p; [reflexivity|].
  cbn [BPLoopback.ready_seen_run pattern_levels]. f_equal.
  unfold BPLoopback.edge, BPSink.pattern_edge.
  destruct (Source.resume s p) as [s' wsrc] eqn:Es.
  destruct (pattern_update_shape pat ps) as (ps' & o & Hpu). rewrite !Hpu.
  rewrite IH. f_equal.
  pose proof (source_keeps_ready s p) as Hr. rewrite Es in Hr. cbn [snd] in Hr.
  destruct o; [reflexivity|]. exact Hr.
Qed.

Section Schedule.

Variable pat : BPSink.pattern.

Local Abbreviation d := (0%Z, false).
Local Abbreviation hold c := (Z.to_nat (Z.max 1 c)).
Local Abbreviation nextp i :=
  (if Nat.ltb (S i) (length pat) then BPSink.mkP (S i) 0 else BPSink.mkP 0 0).
Local Abbreviation nextl i :=
  (snd (nth (if Nat.ltb (S i) (length pat) then S i else 0) pat d)).

Lemma pattern_update_stay (i : nat) (c cy : Z) (st : bool) (b : BPSink.t) :
  (i < length pat)%nat -> nth i pat d = (cy, st) -> (c + 1 < cy)%Z ->
  BPSink.pattern_update pat (BPSink.mkP i c) b = (BPSink.mkP i (c + 1), b, no_writes).
Proof.
  intros Hi Hn Hc. unfold BPSink.pattern_update. cbn [BPSink.pattern_idx BPSink.cycles_in_pattern].
  apply Nat.ltb_lt in Hi. rewrite Hi.  rewrite Hn.
  replace (cy <=? c + 1)%Z with false by (symmetry; apply Z.leb_gt; lia). reflexivity.
Qed.

Lemma pattern_update_advance (i : nat) (c cy : Z) (st : bool) (b : BPSink.t) :
  (i < length pat)%nat -> nth i pat d = (cy, st) -> (cy <= c + 1)%Z ->
  exists b', BPSink.pattern_update pat (BPSink.mkP i c) b = (nextp i, b', set_ready (nextl i)).
Proof.
  intros Hi Hn Hc. unfold BPSink.pattern_update.
  cbn [BPSink.pattern_idx BPSink.cycles_in_pattern].
  apply Nat.ltb_lt in Hi. rewrite Hi.  rewrite Hn.
  replace (cy <=? c + 1)%Z with true by (symmetry; apply Z.leb_le; lia).
  destruct (Nat.ltb (S i) (length pat)).
  - destruct (nth (S i) pat (0%Z, false)) as [cy' st']. eexists; reflexivity.
  - destruct pat as [|[cy0 st0] pat']; [cbn in Hi; discriminate|]. eexists; reflexivity.
Qed.

Lemma segment_levels (i : nat) (cy : Z) (st : bool) :
  (i < length pat)%nat -> nth i pat d = (cy, st) ->
  forall k j m r, (j + k = hold cy)%nat -> (1 <= k)%nat ->
  pattern_levels pat (k + m) (BPSink.mkP i (Z.of_nat j)) r =
  repeat r k ++ pattern_levels pat m (nextp i) (nextl i).
Proof.
  intros Hi Hn. induction k as [|k IH]; intros j m r Hk H1; [lia|].
  cbn [Nat.add pattern_levels repeat app]. f_equal.
    destruct k as [|k].
  - destruct (pattern_update_advance i (Z.of_nat j) cy st BPSink.init Hi Hn ltac:(lia))
      as (b' & ->).
    reflexivity.
  - rewrite (pattern_update_stay i (Z.of_nat j) cy st BPSink.init Hi Hn ltac:(lia)).
    change (level_after no_writes r) with r.
    replace (Z.of_nat j + 1)%Z with (Z.of_nat (S j)) by lia.
    rewrite (IH (S j) m r) by lia. reflexivity.
Qed.

Lemma skipn_nth_cons (l : list (Z * bool)) (i : nat) :
  (i < length l)%nat -> skipn i l = nth i l d :: skipn (S i) l.
Proof.
  revert i; induction l as [|x l IH]; intros i Hi; [cbn in Hi; lia|].
  destruct i as [|i]; [reflexivity|]. cbn [skipn nth]. apply IH. cbn in Hi. lia.
Qed.

Lemma suffix_levels (n : nat) :
  forall i m, (i + S n = length pat)%nat ->
  pattern_levels pat (length (flat_map segment (skipn i pat)) + m) (BPSink.mkP i 0)
    (snd (nth i pat d)) =
  flat_map segment (skipn i pat) ++ pattern_levels pat m (BPSink.mkP 0 0) (snd (nth 0 pat d)).
Proof.
  induction n as [|n IH]; intros i m Hn.
  - rewrite (skipn_nth_cons pat i) by lia.
    rewrite (skipn_all2 (n := S i)) by lia.
    destruct (nth i pat d) as [cy st] eqn:Hnth. cbn [flat_map segment snd]. rewrite !app_nil_r.
    rewrite repeat_length.
    pose proof (segment_levels i cy st ltac:(lia) Hnth (hold cy) 0 m st) as Hs.
    cbn [Z.of_nat] in Hs. rewrite Hs by lia.
    replace (Nat.ltb (S i) (length pat)) with false
      by (symmetry; apply Nat.ltb_ge; lia).
    reflexivity.
  - rewrite (skipn_nth_cons pat i) by lia.
    destruct (nth i pat d) as [cy st] eqn:Hnth. cbn [flat_map segment snd].
    rewrite length_app, repeat_length, <- Nat.add_assoc.
    pose proof (segment_levels i cy st ltac:(lia) Hnth (hold cy) 0
                  (length (flat_map segment (skipn (S i) pat)) + m) st) as Hs.
    cbn [Z.of_nat] in Hs. rewrite Hs by lia.
    replace (Nat.ltb (S i) (length pat)) with true
      by (symmetry; apply Nat.ltb_lt; lia).
    rewrite <- app_assoc. f_equal. apply IH. lia.
Qed.

Lemma period_levels (m : nat) :
  pat <> [] ->
  pattern_levels pat (length (pattern_schedule pat) + m) (BPSink.mkP 0 0) (snd (nth 0 pat d)) =
  pattern_schedule pat ++ pattern_levels pat m (BPSink.mkP 0 0) (snd (nth 0 pat d)).
Proof.
  intros Hne. destruct (length pat) as [|n] eqn:HL; [destruct pat; cbn in HL; congruence|].
  pose proof (suffix_levels n 0 m ltac:(lia)) as H. cbn [skipn] in H.
  exact H.
Qed.

End Schedule.

Lemma pattern_levels_length (pat : BPSink.pattern) (m : nat) :
  forall ps r, length (pattern_levels pat m ps r) = m.
Proof.
  induction m as [|m IH]; intros ps r; [reflexivity|]. cbn [pattern_levels length].
  destruct (BPSink.pattern_update pat ps BPSink.init) as [[ps' b'] w]. rewrite IH. reflexivity.
Qed.

Lemma pattern_levels_prefix (pat : BPSink.pattern) (i : nat) :
  forall m1 m2 ps r, (i < m1)%nat -> (i < m2)%nat ->
  nth i (pattern_levels pat m1 ps r) false = nth i (pattern_levels pat m2 ps r) false.
Proof.
  induction i as [|i IH]; intros [|m1] [|m2] ps r H1 H2; try lia; [reflexivity|].
  cbn [pattern_levels nth].
  destruct (BPSink.pattern_update pat ps BPSink.init) as [[ps' b'] w]. apply IH; lia.
Qed.

Lemma pattern_levels_empty (m : nat) :
  forall ps r, pattern_levels [] m ps r = repeat r m.
Proof.
  induction m as [|m IH]; intros [idx c] r; [reflexivity|].
  cbn [pattern_levels repeat]. f_equal. apply IH.
Qed.

Lemma schedule_nonempty (pat : BPSink.pattern) :
  pat <> [] -> length (pattern_schedule pat) <> 0%nat.
Proof.
  destruct pat as [|[c st] pat]; [congruence|]. intros _.
  unfold pattern_schedule. cbn [flat_map segment]. rewrite length_app, repeat_length. lia.
Qed.

(** [AvalonSTSinkWithBackpressure.run(ready_pattern)] next to a
    [send_packet] on the same port.  The [ready] level sampled at the
    edges follows the pattern exactly and repeats it forever: the level
    at edge [i] (from 0) is entry [i mod L] of the pattern's schedule, a
    segment [(cycles, state)] lasting [max 1 cycles] edges and [L] being
    the schedule's length.  A segment with [cycles <= 1] lasts one edge.
    With an empty pattern [ready] is never written and keeps the level
    it had before. *)
Theorem pattern_ready_schedule (pat : BPSink.pattern) (ws : list Z) (e : Z) (er : bool)
  (p0 : Port) (m : nat) :
  let tr := BPLoopback.ready_seen pat m (BPLoopback.start pat ws e er p0) in
  length tr = m /\
  (pat = [] -> tr = repeat (ready p0) m) /\
  (pat <> [] -> forall i, (i < m)%nat ->
     nth i tr false = nth (i mod length (pattern_schedule pat)) (pattern_schedule pat) false).
Proof.
  intros tr.
  assert (Htr : tr = pattern_levels pat m (BPSink.mkP 0 0)
                       (match pat with [] => ready p0 | (_, st) :: _ => st end)).
  { unfold tr, BPLoopback.ready_seen, BPLoopback.start, Source.send_packet, BPSink.pattern_start.
    destruct pat as [|[c st] pat']; rewrite ready_seen_levels; reflexivity. }
  rewrite Htr. split; [apply pattern_levels_length|]. split.
  - intros ->. apply pattern_levels_empty.
  - intros Hne.
    replace (match pat with [] => ready p0 | (_, st) :: _ => st end)
      with (snd (nth 0 pat (0%Z, false))) by (destruct pat as [|[c st] pat']; [congruence|reflexivity]).
    set (E := pattern_schedule pat). set (L := length E).
    assert (HL : L <> 0%nat) by (apply schedule_nonempty; exact Hne).
    intros i. induction i as [i IH] using lt_wf_ind. intros Hi.
    rewrite (pattern_levels_prefix pat i m (L + S i)) by lia.
    unfold L, E. rewrite (period_levels pat (S i) Hne). fold E. fold L.
    destruct (Nat.lt_ge_cases i L) as [Hlt|Hge].
    + rewrite app_nth1 by exact Hlt. rewrite Nat.mod_small by exact Hlt. reflexivity.
    + rewrite app_nth2 by exact Hge. fold L.
      rewrite (pattern_levels_prefix pat (i - L) (S i) m) by lia.
      rewrite (IH (i - L)) by lia.
      f_equal. replace i with ((i - L) + 1 * L)%nat at 2 by lia.
      rewrite Nat.Div0.mod_add. reflexivity.
Qed.

Lemma sinks_clear_forgets_packet_witness :
  let ps := [mkPort 5 true false true 0 0 true; mkPort 0 false true false 0 0 true] in
  Forall (fun p => valid p && ready p && sop p = false) ps /\
  Sink.monitor (Sink.clear Sink.init) ps = Sink.init.
Proof.
  intros ps. assert (H : Forall (fun p => valid p && ready p && sop p = false) ps)
    by (repeat constructor).
  split; [exact H|].
  exact (proj1 (sinks_clear_forgets_packet Sink.init BPSink.init ps H)).
Defined.

Lemma create_packet_masks_last_word_witness :
  Utils.create_packet 46 "incrementing" 4096 (fun _ => 0%Z) =
    Utils.Ok [4096; 4097; 4098; 4099; 4100; 4101]%Z 2 /\
  last [4096; 4097; 4098; 4099; 4100; 4101]%Z 0%Z =
    Z.land (last (Utils.pattern_words "incrementing" 4096 (fun _ => 0%Z) 6) 0%Z)
           (2 ^ (8 * (8 - 2)) - 1).
Proof.
  assert (H : Utils.create_packet 46 "incrementing" 4096 (fun _ => 0%Z) =
              Utils.Ok [4096; 4097; 4098; 4099; 4100; 4101]%Z 2) by (vm_compute; reflexivity).
  split; [exact H|].
  exact (proj1 (proj2 (create_packet_masks_last_word 46 "incrementing" 4096 (fun _ => 0%Z)
                         [4096; 4097; 4098; 4099; 4100; 4101]%Z 2 H))).
Defined.

Lemma create_packet_words_fit_64_witness :
  Utils.create_packet 46 "incrementing" 4096 (fun _ => 0%Z) =
    Utils.Ok [4096; 4097; 4098; 4099; 4100; 4101]%Z 2 /\
  Forall (fun w => (0 <= w < 2 ^ 64)%Z) [4096; 4097; 4098; 4099; 4100; 4101]%Z.
Proof.
  assert (H : Utils.create_packet 46 "incrementing" 4096 (fun _ => 0%Z) =
              Utils.Ok [4096; 4097; 4098; 4099; 4100; 4101]%Z 2) by (vm_compute; reflexivity).
  split; [exact H|].
  apply (create_packet_words_fit_64 46 "incrementing" 4096 (fun _ => 0%Z)
           [4096; 4097; 4098; 4099; 4100; 4101]%Z 2 H); intros; lia.
Defined.
